(** * The bounded candidate set of the disk-based vector index

    A shallow embedding of [adapters/repos/db/vector/ssdHelpers/set.go]:
    the [Set] type that greedy graph search uses as its working list, and
    the unbalanced binary tree of [Node]s it stores its entries in.

    Conventions of the embedding.
    - A Go pointer to a [Node] is a value of the inductive type [Node]; the nil pointer
      is the constructor [nilNode].  The tree is uniquely owned by its set
      (nodes are only created inside [Add]), so in-place mutation is
      rendered as a function that returns the updated tree.
    - A method that dereferences a nil receiver, or indexes a slice out of
      range, panics.  Every operation therefore returns a [result].
    - [uint64] and [int] are [Z]; the two places where the source does
      arithmetic on an [int] ([size++], [size--], [offset++]) wrap at 64
      bits.
    - [float32] is the IEEE-754 specification type of the standard library,
      compared with the IEEE comparison (a NaN compares false with
      everything). *)

From Stdlib Require Import ZArith List Bool Lia.
From Stdlib Require Import Sorting.Sorted Sorting.Permutation.
From Stdlib Require String.
From Stdlib Require Import Floats.SpecFloat.
Import ListNotations.
Open Scope Z_scope.

(** ** Machine data *)

Module F32.

Definition float32 : Type := spec_float.

Definition prec : Z := 24.
Definition emax : Z := 128.

(** The values a [float32] variable can hold. *)
Definition is_float32 (x : float32) : bool := valid_binary prec emax x.

(** Go's [a < b] and [a > b] on floats. *)
Definition lt (a b : float32) : bool := SFltb a b.
Definition gt (a b : float32) : bool := SFltb b a.
Definition le (a b : float32) : bool := SFleb a b.

Definition is_nan (x : float32) : bool :=
  match x with S754_nan => true | _ => false end.

Definition zero : float32 := S754_zero false.
Definition of_Z (z : Z) : float32 := binary_normalize prec emax z 0 false.
Definition add : float32 -> float32 -> float32 := SFadd prec emax.
Definition sub : float32 -> float32 -> float32 := SFsub prec emax.
Definition mul : float32 -> float32 -> float32 := SFmul prec emax.

End F32.

Abbreviation float32 := F32.float32.

(** Go's [int] on a 64-bit platform. *)
Definition int_max : Z := 2 ^ 63 - 1.
Definition int_wrap (z : Z) : Z := (z + 2 ^ 63) mod 2 ^ 64 - 2 ^ 63.
Definition int_incr (z : Z) : Z := int_wrap (z + 1).
Definition int_decr (z : Z) : Z := int_wrap (z - 1).

(** ** Panics *)

Inductive panic : Type :=
| NilDereference
| IndexOutOfRange
| MakeSliceLen.

Inductive result (A : Type) : Type :=
| Ok (a : A)
| Panic (p : panic).

Arguments Ok {A} a.
Arguments Panic {A} p.

Definition bind {A B : Type} (m : result A) (k : A -> result B) : result B :=
  match m with
  | Ok a => k a
  | Panic p => Panic p
  end.

Definition rmap {A B : Type} (f : A -> B) (m : result A) : result B :=
  bind m (fun a => Ok (f a)).

Declare Scope result_scope.
Delimit Scope result_scope with result.
Notation "x <- m ;; k" := (bind m (fun x => k))
  (at level 61, m at next level, right associativity) : result_scope.
Notation "' p <- m ;; k" := (bind m (fun p => k))
  (at level 61, p pattern, m at next level, right associativity) : result_scope.
Open Scope result_scope.

(** ** The data model of set.go *)

Record IndexAndDistance : Type := mkIAD {
  index : Z;
  distance : float32;
  visited : bool
}.

Inductive Node : Type :=
| nilNode
| mkNode (data : IndexAndDistance) (left right : Node).

Definition error : Type := nat.

(** [func(ctx, id) ([]float32, error)]; a nil error is [None].  The
    closure does I/O, and [Add] calls it anew every time: a value of this
    type is what the closure answers while one call runs.  Within [run]
    the answers stay the same from call to call; [run_io] lets them
    change. *)
Definition VectorForID : Type := Z -> list float32 * option error.
Definition DistanceFunction : Type := list float32 -> list float32 -> float32.

(** The struct [Set].  Its field [distance] is called [distanceFn] here,
    the name [distance] being taken by the field of [IndexAndDistance]. *)
Record CandidateSet : Type := mkSet {
  items : Node;
  vectorForID : VectorForID;
  distanceFn : DistanceFunction;
  center : list float32;
  capacity : Z;
  size : Z
}.

Definition set_items (s : CandidateSet) (n : Node) : CandidateSet :=
  mkSet n (vectorForID s) (distanceFn s) (center s) (capacity s) (size s).

Definition set_size (s : CandidateSet) (z : Z) : CandidateSet :=
  mkSet (items s) (vectorForID s) (distanceFn s) (center s) (capacity s) z.

Definition set_vectorForID (s : CandidateSet) (v : VectorForID) : CandidateSet :=
  mkSet (items s) v (distanceFn s) (center s) (capacity s) (size s).

Definition NewSet (capacity : Z) (vectorForID : VectorForID)
    (distance : DistanceFunction) (center : list float32) : CandidateSet :=
  mkSet nilNode vectorForID distance center capacity 0.

(** ** Node methods *)

Definition leaf (d : IndexAndDistance) : Node := mkNode d nilNode nilNode.

(** [Node.Add(data)], pointer receiver. *)
Fixpoint Node_Add (n : Node) (data : IndexAndDistance) : result Node :=
  match n with
  | nilNode => Panic NilDereference
  | mkNode d l r =>
      if index d =? index data then Ok n
      else if F32.gt (distance d) (distance data) then
        match l with
        | nilNode => Ok (mkNode d (leaf data) r)
        | _ => l' <- Node_Add l data ;; Ok (mkNode d l' r)
        end
      else
        match r with
        | nilNode => Ok (mkNode d l (leaf data))
        | _ => r' <- Node_Add r data ;; Ok (mkNode d l r')
        end
  end.

(** [Node.Last(parent)]: the pair of pointers (last, parent). *)
Fixpoint Node_Last (n parent : Node) : result (Node * Node) :=
  match n with
  | nilNode => Panic NilDereference
  | mkNode d l r =>
      match r with
      | nilNode => Ok (n, parent)
      | _ => Node_Last r n
      end
  end.

(** The assignment [parent.right = v] of [RemoveLastIfBigger], where
    [parent] is the second pointer returned by [Last]: the node of the
    right spine whose right child has no right child. *)
Fixpoint write_parent_right (n v : Node) : Node :=
  match n with
  | nilNode => nilNode
  | mkNode d l r =>
      match r with
      | nilNode => n
      | mkNode _ _ nilNode => mkNode d l v
      | mkNode _ _ (mkNode _ _ _) => mkNode d l (write_parent_right r v)
      end
  end.

(** [Node.NotVisited()] *)
Fixpoint Node_NotVisited (n : Node) : result bool :=
  match n with
  | nilNode => Panic NilDereference
  | mkNode d l r =>
      if negb (visited d) then Ok true
      else
        inl <- match l with
               | nilNode => Ok false
               | _ => Node_NotVisited l
               end ;;
        if inl then Ok true
        else match r with
             | nilNode => Ok false
             | _ => Node_NotVisited r
             end
  end.

Definition mark_visited (d : IndexAndDistance) : IndexAndDistance :=
  mkIAD (index d) (distance d) true.

(** [Node.Top()], returning (uint64, bool); the third component is the
    receiver after the call. *)
Fixpoint Node_Top (n : Node) : result (Z * bool * Node) :=
  match n with
  | nilNode => Panic NilDereference
  | mkNode d l r =>
      let here (l' : Node) : result (Z * bool * Node) :=
        if negb (visited d) then Ok (index d, true, mkNode (mark_visited d) l' r)
        else
          match r with
          | nilNode => Ok (0, false, mkNode d l' r)
          | _ => '(i, found, r') <- Node_Top r ;; Ok (i, found, mkNode d l' r')
          end in
      match l with
      | nilNode => here l
      | _ =>
          '(i, found, l') <- Node_Top l ;;
          if found then Ok (i, found, mkNode d l' r) else here l'
      end
  end.

(** [buffer[offset] = v] *)
Fixpoint store (buffer : list Z) (offset : nat) (v : Z) : result (list Z) :=
  match buffer, offset with
  | [], _ => Panic IndexOutOfRange
  | _ :: b, O => Ok (v :: b)
  | x :: b, S o => b' <- store b o v ;; Ok (x :: b')
  end.

Definition store_at (buffer : list Z) (offset : Z) (v : Z) : result (list Z) :=
  if offset <? 0 then Panic IndexOutOfRange
  else store buffer (Z.to_nat offset) v.

(** [Node.Elements(buffer, offset)], returning the new offset; the slice
    shares its array with the caller, so the written buffer is returned
    with the offset. *)
Fixpoint Node_Elements (n : Node) (buffer : list Z) (offset : Z)
    : result (list Z * Z) :=
  match n with
  | nilNode => Panic NilDereference
  | mkNode d l r =>
      '(buffer, offset) <- match l with
                           | nilNode => Ok (buffer, offset)
                           | _ => Node_Elements l buffer offset
                           end ;;
      buffer <- store_at buffer offset (index d) ;;
      let offset := int_incr offset in
      match r with
      | nilNode => Ok (buffer, offset)
      | _ => Node_Elements r buffer offset
      end
  end.

(** ** Set methods *)

(** [Set.RemoveLastIfBigger(dist)] *)
Definition Set_RemoveLastIfBigger (s : CandidateSet) (dist : float32)
    : result (bool * CandidateSet) :=
  '(last, parent) <- Node_Last (items s) nilNode ;;
  match last with
  | nilNode => Panic NilDereference
  | mkNode last_data last_left _ =>
      if F32.lt (distance last_data) dist then Ok (false, s)
      else
        match parent with
        | nilNode =>
            match items s with
            | nilNode => Panic NilDereference
            | mkNode _ l _ => Ok (true, set_items s l)
            end
        | _ => Ok (true, set_items s (write_parent_right (items s) last_left))
        end
  end.

(** Lines 47-65 of [Add]: count the entry, then hang it into the tree. *)
Definition Set_Add_place (s : CandidateSet) (x : Z) (dist : float32)
    : result CandidateSet :=
  let s := set_size s (int_incr (size s)) in
  let data := mkIAD x dist false in
  match items s with
  | nilNode => Ok (set_items s (leaf data))
  | _ => n <- Node_Add (items s) data ;; Ok (set_items s n)
  end.

(** [Set.Add(x)]; the returned pointer is the receiver. *)
Definition Set_Add (s : CandidateSet) (x : Z) : result CandidateSet :=
  let '(vec, _) := vectorForID s x in
  let dist := distanceFn s vec (center s) in
  if size s =? capacity s then
    '(removed, s) <- Set_RemoveLastIfBigger s dist ;;
    if negb removed then Ok s
    else Set_Add_place (set_size s (int_decr (size s))) x dist
  else Set_Add_place s x dist.

(** [Set.NotVisited()] *)
Definition Set_NotVisited (s : CandidateSet) : result bool :=
  Node_NotVisited (items s).

(** [Set.AddRange(indices)] *)
Fixpoint Set_AddRange (s : CandidateSet) (indices : list Z)
    : result CandidateSet :=
  match indices with
  | [] => Ok s
  | item :: rest => s' <- Set_Add s item ;; Set_AddRange s' rest
  end.

(** [Set.Size()] *)
Definition Set_Size (s : CandidateSet) : Z := size s.

(** [Set.Top()] *)
Definition Set_Top (s : CandidateSet) : result (Z * CandidateSet) :=
  '(x, _, n) <- Node_Top (items s) ;; Ok (x, set_items s n).

(** [make([]uint64, n)] *)
Definition make_slice (n : Z) : result (list Z) :=
  if n <? 0 then Panic MakeSliceLen else Ok (repeat 0 (Z.to_nat n)).

(** [res[:i]] *)
Definition slice_to (res : list Z) (i : Z) : result (list Z) :=
  if (i <? 0) || (Z.of_nat (length res) <? i) then Panic IndexOutOfRange
  else Ok (firstn (Z.to_nat i) res).

(** [Set.Elements()] *)
Definition Set_Elements (s : CandidateSet) : result (list Z) :=
  res <- make_slice (size s) ;;
  '(res, i) <- Node_Elements (items s) res 0 ;;
  slice_to res i.

(** ** The vocabulary of the specification *)

(** In-order traversal: the abstract content of a tree. *)
Fixpoint entries (n : Node) : list IndexAndDistance :=
  match n with
  | nilNode => []
  | mkNode d l r => entries l ++ d :: entries r
  end.

(** The search-tree discipline, phrased with the very comparison
    [Node.Add] branches on: an entry sits in the left subtree of [d] when
    [d.distance > e.distance] held, in the right subtree when it did not. *)
Fixpoint ordered (n : Node) : Prop :=
  match n with
  | nilNode => True
  | mkNode d l r =>
      Forall (fun e => F32.gt (distance d) (distance e) = true) (entries l)
      /\ Forall (fun e => F32.gt (distance d) (distance e) = false) (entries r)
      /\ ordered l /\ ordered r
  end.

(** [b] is not strictly closer to the center than [a]. *)
Definition not_closer (a b : IndexAndDistance) : Prop :=
  F32.lt (distance b) (distance a) = false.

Definition unvisited (e : IndexAndDistance) : bool := negb (visited e).

(** [es'] is [es] with [x] inserted somewhere. *)
Definition inserted (x : IndexAndDistance) (es es' : list IndexAndDistance) : Prop :=
  exists pre post, es = pre ++ post /\ es' = pre ++ x :: post.

(** What [Top] answers: the first unvisited entry of the traversal. *)
Definition top_answer (es : list IndexAndDistance) : Z * bool :=
  match find unvisited es with
  | Some e => (index e, true)
  | None => (0, false)
  end.

(** What [Top] leaves behind: that entry, and no other, marked. *)
Fixpoint mark_first (es : list IndexAndDistance) : list IndexAndDistance :=
  match es with
  | [] => []
  | e :: tl => if visited e then e :: mark_first tl else mark_visited e :: tl
  end.

(** The calls a search makes on its set. *)
Inductive call : Type :=
| CallAdd (x : Z)
| CallAddRange (indices : list Z)
| CallTop.

Definition is_add (c : call) : bool :=
  match c with
  | CallTop => false
  | _ => true
  end.

(** Runs the calls in order on the same set; the first component collects
    what the [Top] calls returned, oldest first. *)
Fixpoint run (s : CandidateSet) (calls : list call)
    : result (list Z * CandidateSet) :=
  match calls with
  | [] => Ok ([], s)
  | CallAdd x :: rest => s' <- Set_Add s x ;; run s' rest
  | CallAddRange xs :: rest => s' <- Set_AddRange s xs ;; run s' rest
  | CallTop :: rest =>
      '(x, s') <- Set_Top s ;;
      '(tops, s'') <- run s' rest ;;
      Ok (x :: tops, s'')
  end.

(** What holds of a set from [NewSet] on, through every call that returns,
    when the capacity is not negative: the tree is ordered, [size] is
    between the number of nodes and the capacity, and only the fresh set
    has a nil root. *)
Record Inv (s : CandidateSet) : Prop := mkInv {
  inv_ordered : ordered (items s);
  inv_count : Z.of_nat (length (entries (items s))) <= size s;
  inv_size : size s <= capacity s;
  inv_capacity : capacity s <= int_max;
  inv_seeded : items s = nilNode -> size s = 0
}.

(** The number of nodes of a tree. *)
Fixpoint Node_count (n : Node) : nat :=
  match n with
  | nilNode => O
  | mkNode _ l r => S (Node_count l + Node_count r)
  end.

(** What of a set a caller can observe apart from its collaborators. *)
Definition content (s : CandidateSet) : Node * Z * Z :=
  (items s, size s, capacity s).

(** The stored IDs in traversal order, with the reported size. *)
Definition ids_and_size (s : CandidateSet) : list Z * Z :=
  (map index (entries (items s)), Set_Size s).

(** A vector source that returns the same vectors and never fails. *)
Definition drop_errors (vf : VectorForID) : VectorForID :=
  fun id => (fst (vf id), None).

(** The distance [Add(x)] computes for its candidate. *)
Definition candidate_distance (s : CandidateSet) (x : Z) : float32 :=
  distanceFn s (fst (vectorForID s x)) (center s).

(** ** Example inputs *)

(** A metric to run the set with: the squared Euclidean distance, summed
    in [float32] arithmetic over the common prefix of the two vectors.
    [NewSet] takes any function of the type; the general statements below
    are over an arbitrary [DistanceFunction]. *)
Definition sqEuclid : DistanceFunction :=
  fun a b =>
    fold_left
      (fun acc p =>
         let d := F32.sub (fst p) (snd p) in F32.add acc (F32.mul d d))
      (combine a b) F32.zero.

(** A vector source over the one-dimensional vectors [(id)]. *)
Definition line_source : VectorForID :=
  fun id => ([F32.of_Z id], None).

(** A vector source whose every fetch fails, the way a Go function reports
    it: the zero value of the slice together with a non-nil error. *)
Definition failing_source : VectorForID :=
  fun _ => ([], Some 1%nat).

Definition origin : list float32 := [F32.zero].

(** A set of capacity 1 holding the unvisited entry 0. *)
Definition live_zero : CandidateSet :=
  mkSet (leaf (mkIAD 0 F32.zero false)) line_source sqEuclid origin 1 1.

(** A set of capacity 1 whose one entry, 7, has been visited. *)
Definition spent_seven : CandidateSet :=
  mkSet (leaf (mkIAD 7 (F32.of_Z 49) true)) line_source sqEuclid origin 1 1.

(** Four entries on a line, in a set of capacity 4. *)
Definition full_line : CandidateSet :=
  mkSet (mkNode (mkIAD 3 (F32.of_Z 9) false)
           (mkNode (mkIAD 1 (F32.of_Z 1) false)
              nilNode (leaf (mkIAD 2 (F32.of_Z 4) false)))
           (leaf (mkIAD 5 (F32.of_Z 25) false)))
    line_source sqEuclid origin 4 4.

(** The set [live_zero] after its entry has been visited. *)
Definition spent_zero : CandidateSet :=
  mkSet (leaf (mkIAD 0 F32.zero true)) line_source sqEuclid origin 1 1.

(** ** Further vocabulary *)

(** The stored IDs, in traversal order. *)
Definition ids (s : CandidateSet) : list Z :=
  map index (entries (items s)).

(** Every stored distance is the one the set's collaborators give the
    entry's ID. *)
Definition sourced (s : CandidateSet) : Prop :=
  Forall (fun e => distance e = candidate_distance s (index e))
    (entries (items s)).

(** The invariant [Inv], with the two facts that make a stored ID
    findable: its distance is the computed one, and it is stored once. *)
Record Sound (s : CandidateSet) : Prop := mkSound {
  sound_inv : Inv s;
  sound_sourced : sourced s;
  sound_distinct : NoDup (ids s)
}.

(** The fields no method assigns. *)
Definition same_params (s s' : CandidateSet) : Prop :=
  vectorForID s' = vectorForID s /\ distanceFn s' = distanceFn s
  /\ center s' = center s /\ capacity s' = capacity s.

(** The entry [Add(x)] builds. *)
Definition candidate (s : CandidateSet) (x : Z) : IndexAndDistance :=
  mkIAD x (candidate_distance s x) false.

(** The longest chain of pointers from a root down. *)
Fixpoint Node_height (n : Node) : nat :=
  match n with
  | nilNode => O
  | mkNode _ l r => S (Nat.max (Node_height l) (Node_height r))
  end.

(** No node has a left child. *)
Fixpoint right_spine (n : Node) : Prop :=
  match n with
  | nilNode => True
  | mkNode _ l r => l = nilNode /\ right_spine r
  end.

Definition no_nan (es : list IndexAndDistance) : Prop :=
  Forall (fun e => F32.is_nan (distance e) = false) es.

(** Two entries on a line, in a set of capacity 4. *)
Definition pair_line : CandidateSet :=
  mkSet (mkNode (mkIAD 3 (F32.of_Z 9) false)
           (leaf (mkIAD 1 (F32.of_Z 1) false)) nilNode)
    line_source sqEuclid origin 4 2.

(** A set of capacity 3 around the center 3, holding the ID 2. *)
Definition tie_seed : CandidateSet :=
  mkSet (leaf (mkIAD 2 (F32.of_Z 1) false)) line_source sqEuclid
    [F32.of_Z 3] 3 1.

(** A vector source whose vector for the ID 9 holds a NaN. *)
Definition nan_source : VectorForID :=
  fun id => if id =? 9 then ([S754_nan], None) else ([F32.of_Z id], None).

(** The set of capacity 3 after [Add(9)] and [Add(2)] from [nan_source]:
    the entry 9, whose distance is a NaN, comes first in the traversal. *)
Definition nan_first : CandidateSet :=
  mkSet (mkNode (mkIAD 9 S754_nan false) nilNode
           (leaf (mkIAD 2 (F32.of_Z 4) false)))
    nan_source sqEuclid origin 3 2.

(** ** A vector source whose answers change

    A run in which the source is consulted anew at every call: each call
    comes with what the closure answers while that call runs.  [AddRange]
    is a loop of [Add], so a range during which the answers change is a
    run of [CallAdd] steps. *)
Fixpoint run_io (s : CandidateSet) (calls : list (VectorForID * call))
    : result (list Z * CandidateSet) :=
  match calls with
  | [] => Ok ([], s)
  | (v, c) :: rest =>
      '(tops, s') <- run (set_vectorForID s v) [c] ;;
      '(tops', s'') <- run_io s' rest ;;
      Ok (tops ++ tops', s'')
  end.

(** Throughout the run the source answers every ID with the vector [vf]
    has for it; the error it reports with the vector may vary. *)
Definition steady (vf : VectorForID) (calls : list (VectorForID * call))
    : Prop :=
  Forall (fun vc => forall x, fst (fst vc x) = fst (vf x)) calls.

(** Every stored distance is the distance of the vector [vf] has for the
    entry's ID. *)
Definition sourced_by (vf : VectorForID) (s : CandidateSet) : Prop :=
  Forall (fun e => distance e = distanceFn s (fst (vf (index e))) (center s))
    (entries (items s)).

(** Three calls during which the fetch of the ID 5 fails once and then
    succeeds. *)
Definition flaky_run : list (VectorForID * call) :=
  [(line_source, CallAdd 3); (failing_source, CallAdd 5);
   (line_source, CallAdd 5)].

(** Two calls with a source that answers the same way both times. *)
Definition steady_run : list (VectorForID * call) :=
  [(line_source, CallAdd 3); (line_source, CallAdd 1)].

(** * The schema sync at startup

    A shallow embedding of [usecases/schema/startup_cluster_sync.go].  The
    types [State] and [models.Schema], the function [Equal] and the
    interfaces behind [m.clusterState] and [m.cluster] are declared
    elsewhere in the repository; they are the variables of the section.
    What a call to a collaborator returns is given with the manager; that
    the call was made is recorded in the manager's [events]. *)

Module ClusterSync.

Section Model.

Context {Class Schema State ClusterError OtherPayload : Type}.

(** [schema.Classes] and [state.ObjectSchema]; a nil pointer is [None]. *)
Variable Classes : Schema -> list Class.
Variable ObjectSchema : State -> option Schema.

(** [Equal(a, b)] on two pointers to a [State]. *)
Variable Equal : option State -> option State -> bool.

(** The dynamic type of [tx.Payload]. *)
Inductive payload : Type :=
| ReadSchemaPayload (schema : option State)
| OtherPayloadOf (p : OtherPayload).

Record Transaction : Type := mkTransaction {
  Payload : payload
}.

(** The values [fmt.Errorf] builds in this file, by format string. *)
Inductive sync_error : Type :=
| ClusterSizeZero
| OnlyNodeNotLocal (nodes : list String.string) (localName : String.string)
| OpenTransaction (err : ClusterError)
| UnrecognizedPayload (p : payload)
| SchemaOutOfSync.

Inductive event : Type :=
| BeginTransactionCalled
| CloseReadTransactionCalled (tx : option Transaction)
| SaveSchemaCalled (saved : State)
| DebugLogged.

(** The manager: the field [state], what its collaborators answer, and the
    calls made on them so far, oldest first. *)
Record Manager : Type := mkManager {
  state : State;
  AllNames : list String.string;
  LocalName : String.string;
  BeginTransaction : option Transaction * option ClusterError;
  events : list event
}.

Definition record_event (m : Manager) (e : event) : Manager :=
  mkManager (state m) (AllNames m) (LocalName m) (BeginTransaction m)
    (events m ++ [e]).

Definition set_state (m : Manager) (st : State) : Manager :=
  mkManager st (AllNames m) (LocalName m) (BeginTransaction m) (events m).

(** [isEmpty(schema)] *)
Definition isEmpty (schema : option State) : result bool :=
  match schema with
  | None => Panic NilDereference
  | Some st =>
      match ObjectSchema st with
      | None => Ok true
      | Some sc => if (length (Classes sc) =? 0)%nat then Ok true else Ok false
      end
  end.

(** [startupHandleSingleNode(ctx, nodes)] *)
Definition startupHandleSingleNode (m : Manager) (nodes : list String.string)
    : result (option sync_error) * Manager :=
  let localName := LocalName m in
  match nodes with
  | [] => (Ok (Some ClusterSizeZero), m)
  | first :: _ =>
      if negb (String.eqb first localName)
      then (Ok (Some (OnlyNodeNotLocal nodes localName)), m)
      else (Ok None, record_event m DebugLogged)
  end.

(** The statement [defer m.cluster.CloseReadTransaction(ctx, tx)]: the
    call is made when the body is left, by return or by panic. *)
Definition deferred_close (tx : option Transaction)
    (body : result (option sync_error) * Manager)
    : result (option sync_error) * Manager :=
  (fst body, record_event (snd body) (CloseReadTransactionCalled tx)).

(** [startupJoinCluster(ctx, localSchema)] *)
Definition startupJoinCluster (m : Manager) (localSchema : option State)
    : result (option sync_error) * Manager :=
  let m := record_event m BeginTransactionCalled in
  match BeginTransaction m with
  | (_, Some err) => (Ok (Some (OpenTransaction err)), m)
  | (tx, None) =>
      deferred_close tx
        match tx with
        | None => (Panic NilDereference, m)
        | Some t =>
            match Payload t with
            | OtherPayloadOf p => (Ok (Some (UnrecognizedPayload (Payload t))), m)
            | ReadSchemaPayload schema =>
                match isEmpty schema with
                | Panic p => (Panic p, m)
                | Ok true => (Ok None, m)
                | Ok false =>
                    match schema with
                    | None => (Panic NilDereference, m)
                    | Some st =>
                        let m := set_state m st in
                        let m := record_event m (SaveSchemaCalled (state m)) in
                        (Ok None, m)
                    end
                end
            end
        end
  end.

(** [validateSchemaCorruption(ctx, localSchema)] *)
Definition validateSchemaCorruption (m : Manager) (localSchema : option State)
    : result (option sync_error) * Manager :=
  let m := record_event m BeginTransactionCalled in
  match BeginTransaction m with
  | (_, Some err) => (Ok (Some (OpenTransaction err)), m)
  | (tx, None) =>
      deferred_close tx
        match tx with
        | None => (Panic NilDereference, m)
        | Some t =>
            match Payload t with
            | OtherPayloadOf p => (Ok (Some (UnrecognizedPayload (Payload t))), m)
            | ReadSchemaPayload schema =>
                if negb (Equal localSchema schema)
                then (Ok (Some SchemaOutOfSync), m)
                else (Ok None, m)
            end
        end
  end.

(** [startupClusterSync(ctx, localSchema)] *)
Definition startupClusterSync (m : Manager) (localSchema : option State)
    : result (option sync_error) * Manager :=
  let nodes := AllNames m in
  if (length nodes <=? 1)%nat then startupHandleSingleNode m nodes
  else
    match isEmpty localSchema with
    | Panic p => (Panic p, m)
    | Ok true => startupJoinCluster m localSchema
    | Ok false => validateSchemaCorruption m localSchema
    end.

(** The calls a run added to the record. *)
Definition added (m m' : Manager) (es : list event) : Prop :=
  events m' = events m ++ es.

End Model.

(** ** Example inputs: classes are numbers, a schema is its list of
    classes, a state is its schema pointer. *)

Definition demo_Classes (sc : list nat) : list nat := sc.
Definition demo_ObjectSchema (st : option (list nat)) : option (list nat) := st.

Definition demo_Equal (a b : option (option (list nat))) : bool :=
  match a, b with
  | None, None => true
  | Some None, Some None => true
  | Some (Some x), Some (Some y) =>
      if list_eq_dec Nat.eq_dec x y then true else false
  | _, _ => false
  end.

Definition demo_sync :=
  startupClusterSync (OtherPayload := unit) (ClusterError := nat)
    demo_Classes demo_ObjectSchema demo_Equal.

(** A node with no schema yet, named [local_name], in a cluster whose
    nodes are [names] and whose read transaction answers [answer]. *)
Definition demo_manager (names : list String.string)
    (local_name : String.string)
    (answer : option (@Transaction (option (list nat)) unit) * option nat)
    : @Manager (option (list nat)) nat unit :=
  mkManager None names local_name answer [].

Import String.

Definition node1 : string := "node1"%string.
Definition node2 : string := "node2"%string.
Definition two_nodes : list string := [node1; node2].

(** The other nodes agree on a schema with the classes 1 and 2. *)
Definition consensus_12
    : option (@Transaction (option (list nat)) unit) * option nat :=
  (Some (mkTransaction (ReadSchemaPayload (Some (Some [1%nat; 2%nat])))), None).

End ClusterSync.

(** * The schema update for network references

    A shallow embedding of the REST helper [referenceSchemaUpdater].  The
    packages [models], [crossref], [crossrefs], [peers] and [kind] are
    declared elsewhere in the repository: their types are the variables of
    the section, and [crossref.ParseSingleRef] and [peers.RemoteKind] are
    taken as functions that return a value or an error.  The two
    interfaces of the updater, [peersLister] and [schemaManager], answer
    as a function of the calls made so far, which are recorded. *)

Module RefSchema.

Import String.

Section Model.

Context {Kind TargetID Peers Err OtherKind OtherProp OtherSchema : Type}.

(** What [addNetworkDataTypes] can panic with. *)
Inductive crash : Type :=
| NilPointer
| InterfaceConversion.

(** A [models.SingleRef] by its field [NrDollarCref]; a pointer to one is
    an [option]. *)
Record SingleRef : Type := mkSingleRef {
  NrDollarCref : String.string
}.

(** The result of [crossref.ParseSingleRef], by the fields read here. *)
Record Ref : Type := mkRef {
  Local : bool;
  RefKind : Kind;
  RefTargetID : TargetID;
  PeerName : String.string
}.

Record NetworkKind : Type := mkNetworkKind {
  nkKind : Kind;
  nkID : TargetID;
  nkPeerName : String.string
}.

(** The dynamic type of what [RemoteKind] returns: a [models.Thing], a
    [models.Action], each by its field [AtClass], or something else. *)
Inductive remote_kind : Type :=
| Thing (AtClass : String.string)
| Action (AtClass : String.string)
| NeitherThingNorAction (o : OtherKind).

(** The dynamic type of a property value. *)
Inductive prop_value : Type :=
| SingleRefProp (prop : option SingleRef)
| MultipleRefProp (props : list (option SingleRef))
| PrimitiveProp (o : OtherProp).

(** The dynamic type of the argument [schema]; a map is given by its
    entries in the order in which [range] visits them. *)
Inductive schema_value : Type :=
| NilSchema
| MapSchema (entries : list (String.string * prop_value))
| NotAMap (o : OtherSchema).

Inductive call : Type :=
| ListPeersCalled
| UpdatePropertyAddDataTypeCalled
    (k : Kind) (fromClass propName remoteClass : String.string).

(** The errors this file returns, by format string; [ParseFailed] is the
    error of the parser, returned as it is. *)
Inductive update_error : Type :=
| ParseFailed (err : Err)
| CouldNotListPeers (err : Err)
| InvalidNetworkReference (err : Err)
| CouldNotAddThingClass (remoteClass fromClass propName : String.string) (err : Err)
| CouldNotAddActionClass (remoteClass fromClass propName : String.string) (err : Err)
| UnrecognizedKind (cref peerName : String.string).

Inductive outcome : Type :=
| Returned (err : option update_error)
| Crashed (c : crash).

Variable ParseSingleRef : option SingleRef -> Ref + Err.
Variable RemoteKind : Peers -> NetworkKind -> remote_kind + Err.

(** The struct [referenceSchemaUpdater]; [network] and [schemaManager]
    are given by what [ListPeers] and [UpdatePropertyAddDataType] answer
    after the calls made so far. *)
Record referenceSchemaUpdater : Type := mkUpdater {
  ListPeers : list call -> Peers + Err;
  UpdatePropertyAddDataType :
    list call -> Kind -> String.string -> String.string -> String.string ->
    option Err;
  fromClass : String.string;
  kind : Kind
}.

(** [fmt.Sprintf("%s/%s", peerName, atClass)] *)
Definition remote_class (peerName atClass : String.string) : String.string :=
  (peerName ++ "/" ++ atClass)%string.

(** [updateSchema(remoteKind, peerName, prop, propName)]; the second
    component is the record of calls after it. *)
Definition updateSchema (u : referenceSchemaUpdater) (calls : list call)
    (remoteKind : remote_kind) (peerName : String.string)
    (prop : option SingleRef) (propName : String.string)
    : outcome * list call :=
  match remoteKind with
  | Thing atClass =>
      let remoteClass := remote_class peerName atClass in
      let this := UpdatePropertyAddDataTypeCalled (kind u) (fromClass u)
                    propName remoteClass in
      match UpdatePropertyAddDataType u calls (kind u) (fromClass u)
              propName remoteClass with
      | Some err =>
          (Returned (Some (CouldNotAddThingClass remoteClass (fromClass u)
                             propName err)), calls ++ [this])
      | None => (Returned None, calls ++ [this])
      end
  | Action atClass =>
      let remoteClass := remote_class peerName atClass in
      let this := UpdatePropertyAddDataTypeCalled (kind u) (fromClass u)
                    propName remoteClass in
      match UpdatePropertyAddDataType u calls (kind u) (fromClass u)
              propName remoteClass with
      | Some err =>
          (Returned (Some (CouldNotAddActionClass remoteClass (fromClass u)
                             propName err)), calls ++ [this])
      | None => (Returned None, calls ++ [this])
      end
  | NeitherThingNorAction _ =>
      match prop with
      | None => (Crashed NilPointer, calls)
      | Some p => (Returned (Some (UnrecognizedKind (NrDollarCref p) peerName)),
                   calls)
      end
  end.

(** [singleRef(prop, propName)] *)
Definition singleRef (u : referenceSchemaUpdater) (calls : list call)
    (prop : option SingleRef) (propName : String.string)
    : outcome * list call :=
  match ParseSingleRef prop with
  | inr err => (Returned (Some (ParseFailed err)), calls)
  | inl parsed =>
      if Local parsed then (Returned None, calls)
      else
        match ListPeers u calls with
        | inr err =>
            (Returned (Some (CouldNotListPeers err)), calls ++ [ListPeersCalled])
        | inl peers =>
            let calls := calls ++ [ListPeersCalled] in
            match RemoteKind peers
                    (mkNetworkKind (RefKind parsed) (RefTargetID parsed)
                       (PeerName parsed)) with
            | inr err => (Returned (Some (InvalidNetworkReference err)), calls)
            | inl remoteKind =>
                updateSchema u calls remoteKind (PeerName parsed) prop propName
            end
        end
  end.

(** The inner loop, over a [models.MultipleRef]. *)
Fixpoint multipleRef (u : referenceSchemaUpdater) (calls : list call)
    (props : list (option SingleRef)) (propName : String.string)
    : outcome * list call :=
  match props with
  | [] => (Returned None, calls)
  | single :: rest =>
      match singleRef u calls single propName with
      | (Returned None, calls) => multipleRef u calls rest propName
      | stopped => stopped
      end
  end.

(** The outer loop, over the entries of the map. *)
Fixpoint eachProperty (u : referenceSchemaUpdater) (calls : list call)
    (entries : list (String.string * prop_value)) : outcome * list call :=
  match entries with
  | [] => (Returned None, calls)
  | (propName, prop) :: rest =>
      match prop with
      | SingleRefProp propTyped =>
          match singleRef u calls propTyped propName with
          | (Returned None, calls) => eachProperty u calls rest
          | stopped => stopped
          end
      | MultipleRefProp propTyped =>
          match multipleRef u calls propTyped propName with
          | (Returned None, calls) => eachProperty u calls rest
          | stopped => stopped
          end
      | PrimitiveProp _ => eachProperty u calls rest
      end
  end.

(** [addNetworkDataTypes(schema)] *)
Definition addNetworkDataTypes (u : referenceSchemaUpdater)
    (calls : list call) (schema : schema_value) : outcome * list call :=
  match schema with
  | NilSchema => (Returned None, calls)
  | MapSchema entries => eachProperty u calls entries
  | NotAMap _ => (Crashed InterfaceConversion, calls)
  end.

(** The references of a map, each with the name of its property, in the
    order in which the loops reach them. *)
Definition references (entries : list (String.string * prop_value))
    : list (String.string * option SingleRef) :=
  flat_map
    (fun entry =>
       match snd entry with
       | SingleRefProp prop => [(fst entry, prop)]
       | MultipleRefProp props => map (fun prop => (fst entry, prop)) props
       | PrimitiveProp _ => []
       end)
    entries.

(** A reference the parser takes for a local one. *)
Definition is_local (prop : option SingleRef) : Prop :=
  exists parsed, ParseSingleRef prop = inl parsed /\ Local parsed = true.

(** A reference the parser takes for one into the network. *)
Definition is_remote (prop : option SingleRef) : bool :=
  match ParseSingleRef prop with
  | inl parsed => negb (Local parsed)
  | inr _ => false
  end.

(** The two loops as one, over the references in the order in which
    they are reached. *)
Fixpoint eachReference (u : referenceSchemaUpdater) (calls : list call)
    (refs : list (String.string * option SingleRef)) : outcome * list call :=
  match refs with
  | [] => (Returned None, calls)
  | (propName, prop) :: rest =>
      match singleRef u calls prop propName with
      | (Returned None, calls) => eachReference u calls rest
      | stopped => stopped
      end
  end.

(** The calls one reference into the network leads to when all goes
    well. *)
Definition calls_for (u : referenceSchemaUpdater)
    (update : String.string * String.string) : list call :=
  [ListPeersCalled;
   UpdatePropertyAddDataTypeCalled (kind u) (fromClass u) (fst update)
     (snd update)].

(** What a reference that fails can have called before it failed. *)
Definition stopped_tail (u : referenceSchemaUpdater) (tail : list call) : Prop :=
  tail = [] \/ tail = [ListPeersCalled] \/ exists update, tail = calls_for u update.

(** The update [(propName, remoteClass)] is the one the reference asks
    for: its property, and the class of some peer's thing or action under
    the name of the peer the reference parses to. *)
Definition asked_by (ref : String.string * option SingleRef)
    (update : String.string * String.string) : Prop :=
  fst update = fst ref
  /\ exists parsed atClass,
       ParseSingleRef (snd ref) = inl parsed
       /\ snd update = remote_class (PeerName parsed) atClass.

End Model.

(** An updater for the examples: kinds are booleans, target IDs numbers,
    errors strings; the network has one peer, whose things are cars, and
    the schema manager accepts every update. *)
Definition demo_local : option SingleRef :=
  Some (mkSingleRef "weaviate://localhost/things/1"%string).

Definition demo_remote : option SingleRef :=
  Some (mkSingleRef "weaviate://peerA/things/2"%string).

Definition demo_ParseSingleRef (prop : option SingleRef)
    : @Ref bool Z + String.string :=
  match prop with
  | None => inr "nil reference"%string
  | Some ref =>
      if String.eqb (NrDollarCref ref) "weaviate://localhost/things/1"%string
      then inl (mkRef true true 1 EmptyString)
      else inl (mkRef false true 2 "peerA"%string)
  end.

Definition demo_RemoteKind (peers : list String.string)
    (nk : @NetworkKind bool Z) : @remote_kind unit + String.string :=
  inl (Thing "Car"%string).

Definition demo_updater
    : @referenceSchemaUpdater bool (list String.string) String.string :=
  mkUpdater (fun _ => inl ["peerA"%string]) (fun _ _ _ _ _ => None) "Person"%string true.

Definition demo_add (calls : list call)
    (schema : @schema_value Z unit) : outcome * list call :=
  addNetworkDataTypes demo_ParseSingleRef demo_RemoteKind demo_updater
    calls schema.

Definition local_entries : list (String.string * @prop_value Z) :=
  [("age"%string, PrimitiveProp 30); ("knows"%string, SingleRefProp demo_local);
   ("likes"%string, MultipleRefProp [demo_local; demo_local])].

Definition mixed_entries : list (String.string * @prop_value Z) :=
  [("age"%string, PrimitiveProp 30); ("knows"%string, SingleRefProp demo_local);
   ("drives"%string, MultipleRefProp [demo_remote; demo_local])].

(** The one update [mixed_entries] asks for. *)
Definition drives_car : String.string * String.string :=
  ("drives"%string, remote_class "peerA"%string "Car"%string).

End RefSchema.

(** * Properties *)

(** ** The order of [float32] *)

Module F32Order.

Lemma lt_irrefl a : F32.lt a a = false.
Proof.
  unfold F32.lt, SFltb.
  destruct a as [[]|[]| |[] m e]; simpl; try reflexivity;
    change (PosDef.Pos.compare_cont Eq) with Pos.compare;
    rewrite Z.compare_refl, Pos.compare_refl; reflexivity.
Qed.

Lemma lt_trans a b c :
  F32.lt a b = true -> F32.lt b c = true -> F32.lt a c = true.
Proof.
  unfold F32.lt, SFltb.
  destruct a as [[]|[]| |[] ma ea], b as [[]|[]| |[] mb eb],
           c as [[]|[]| |[] mc ec];
    simpl; try discriminate; try reflexivity; intros H1 H2;
    change (PosDef.Pos.compare_cont Eq) with Pos.compare in *;
    destruct (Z.compare_spec ea eb), (Z.compare_spec eb ec),
             (Z.compare_spec ea ec);
    try discriminate; try reflexivity; try lia;
    destruct (Pos.compare_spec ma mb), (Pos.compare_spec mb mc),
             (Pos.compare_spec ma mc);
    try discriminate; try reflexivity; lia.
Qed.

Lemma lt_asym a b : F32.lt a b = true -> F32.lt b a = false.
Proof.
  intros H. destruct (F32.lt b a) eqn:E; [ | reflexivity ].
  rewrite <- (lt_irrefl a). symmetry. exact (lt_trans _ _ _ H E).
Qed.

(** Away from NaN the order is total. *)
Lemma not_lt_le a b :
  F32.is_nan a = false -> F32.is_nan b = false ->
  F32.lt b a = false -> F32.le a b = true.
Proof.
  unfold F32.lt, F32.le, SFltb, SFleb.
  destruct a as [[]|[]| |[] ma ea], b as [[]|[]| |[] mb eb];
    cbn [SFcompare F32.is_nan]; try discriminate; try reflexivity;
    intros _ _;
    change (PosDef.Pos.compare_cont Eq) with Pos.compare;
    rewrite (Z.compare_antisym ea eb), (Pos.compare_antisym ma mb);
    destruct (ea ?= eb), (ma ?= mb)%positive; cbn; congruence.
Qed.

End F32Order.

(** ** The tree as a sequence of entries *)

Lemma inserted_Forall (P : IndexAndDistance -> Prop) x es es' :
  inserted x es es' -> P x -> Forall P es -> Forall P es'.
Proof.
  intros (pre & post & -> & ->) Hx H.
  apply Forall_app in H. destruct H as [H1 H2].
  apply Forall_app. split; [ exact H1 | constructor; assumption ].
Qed.

Lemma inserted_length x es es' :
  inserted x es es' -> length es' = S (length es).
Proof.
  intros (pre & post & -> & ->). rewrite !length_app. simpl. lia.
Qed.

Lemma inserted_left x es es' tl :
  inserted x es es' -> inserted x (es ++ tl) (es' ++ tl).
Proof.
  intros (pre & post & -> & ->).
  exists pre, (post ++ tl). rewrite <- !app_assoc. split; reflexivity.
Qed.

Lemma inserted_right x es es' hd :
  inserted x es es' -> inserted x (hd ++ es) (hd ++ es').
Proof.
  intros (pre & post & -> & ->).
  exists (hd ++ pre), post. rewrite <- !app_assoc. split; reflexivity.
Qed.

Lemma entries_nil n : entries n = [] -> n = nilNode.
Proof.
  destruct n as [ | d l r]; [ reflexivity | simpl ].
  intros H. destruct (entries l); discriminate H.
Qed.

(** *** [Node.Add] *)

Ltac quad := split; [ | split; [ | split ] ].

(** [Node.Add] on a non-nil receiver returns; it either meets an entry
    with the same index on its way down and changes nothing, or hangs the
    new entry in as a leaf. *)
Lemma Node_Add_spec n data :
  n <> nilNode ->
  exists n',
    Node_Add n data = Ok n' /\ n' <> nilNode
    /\ ((n' = n /\ In (index data) (map index (entries n)))
        \/ inserted data (entries n) (entries n'))
    /\ (ordered n -> ordered n').
Proof.
  induction n as [ | d l IHl r IHr]; intros Hn; [ congruence | clear Hn ].
  cbn [Node_Add].
  destruct (Z.eqb_spec (index d) (index data)) as [Heq | Hne].
  { exists (mkNode d l r). quad; try discriminate; auto.
    left. split; [ reflexivity | ]. cbn [entries]. rewrite map_app.
    apply in_or_app. right. left. exact Heq. }
  destruct (F32.gt (distance d) (distance data)) eqn:Hgt.
  - destruct l as [ | ld ll lr].
    + exists (mkNode d (leaf data) r). quad; try discriminate; auto.
      * right. exists [], (d :: entries r). split; reflexivity.
      * simpl. intros (_ & Hr & _ & Hor). quad; auto.
    + destruct IHl as (l' & -> & Hl' & Hg & Ho); [ discriminate | ].
      exists (mkNode d l' r). quad; try discriminate; auto.
      * destruct Hg as [[-> Hin] | Hins]; [ left | right ].
        -- split; [ reflexivity | ]. cbn [entries]. rewrite map_app.
           apply in_or_app. left. exact Hin.
        -- cbn [entries]. apply inserted_left. exact Hins.
      * cbn [ordered]. intros (Hl & Hr & Hol & Hor). quad; auto.
        destruct Hg as [[-> _] | Hins]; [ exact Hl | ].
        apply (inserted_Forall _ _ _ _ Hins); assumption.
  - destruct r as [ | rd rl rr].
    + exists (mkNode d l (leaf data)). quad; try discriminate; auto.
      * right. exists (entries l ++ [d]), []. cbn [entries].
        rewrite <- !app_assoc, app_nil_r. split; reflexivity.
      * simpl. intros (Hl & _ & Hol & _). quad; auto.
    + destruct IHr as (r' & -> & Hr' & Hg & Ho); [ discriminate | ].
      exists (mkNode d l r'). quad; try discriminate; auto.
      * destruct Hg as [[-> Hin] | Hins]; [ left | right ].
        -- split; [ reflexivity | ]. cbn [entries]. rewrite map_app.
           apply in_or_app. right. right. exact Hin.
        -- cbn [entries].
           apply inserted_right with (hd := entries l ++ [d]) in Hins.
           rewrite <- !app_assoc in Hins. exact Hins.
      * cbn [ordered]. intros (Hl & Hr & Hol & Hor). quad; auto.
        destruct Hg as [[-> _] | Hins]; [ exact Hr | ].
        apply (inserted_Forall _ _ _ _ Hins); assumption.
Qed.

(** *** [Node.Last] and the removal of the last node *)

Lemma Node_Last_spec n :
  n <> nilNode ->
  forall p,
  exists ld ll parent,
    Node_Last n p = Ok (mkNode ld ll nilNode, parent)
    /\ ((n = mkNode ld ll nilNode /\ parent = p)
        \/ (parent <> nilNode
            /\ entries n = entries (write_parent_right n ll) ++ [ld]
            /\ (ordered n -> ordered (write_parent_right n ll)))).
Proof.
  induction n as [ | d l _ r IHr]; intros Hn p; [ congruence | clear Hn ].
  destruct r as [ | rd rl rr].
  - exists d, l, p. split; [ reflexivity | left; split; reflexivity ].
  - destruct (IHr ltac:(discriminate) (mkNode d l (mkNode rd rl rr)))
      as (ld & ll & parent & HL & Hcase).
    exists ld, ll, parent. split; [ exact HL | right ].
    destruct Hcase as [[Heq Hp] | (Hp & He & Ho)].
    + injection Heq as -> -> ->. subst parent.
      split; [ discriminate | ]. cbn [write_parent_right entries].
      split; [ rewrite <- app_assoc; reflexivity | ].
      cbn [ordered entries]. intros (Hl & Hr & Hol & _ & _ & Holl & _).
      quad; auto.
      apply Forall_app in Hr. tauto.
    + split; [ exact Hp | ].
      destruct rr as [ | rrd rrl rrr].
      { exfalso. apply (f_equal (@length _)) in He. simpl in He.
        rewrite !length_app in He. simpl in He. lia. }
      change (write_parent_right (mkNode d l (mkNode rd rl (mkNode rrd rrl rrr))) ll)
        with (mkNode d l (write_parent_right (mkNode rd rl (mkNode rrd rrl rrr)) ll)).
      remember (mkNode rd rl (mkNode rrd rrl rrr)) as r eqn:Er.
      cbn [entries]. rewrite He. split; [ rewrite <- app_assoc; reflexivity | ].
      cbn [ordered]. intros (Hl & Hr & Hol & Hor). quad; auto.
      rewrite He in Hr. apply Forall_app in Hr. tauto.
Qed.

(** [RemoveLastIfBigger] on a non-empty tree: it looks at the last entry of
    the traversal and, unless that entry is strictly closer than [dist],
    drops it. *)
Lemma Set_RemoveLastIfBigger_spec s dist :
  items s <> nilNode ->
  exists last rest,
    entries (items s) = entries rest ++ [last]
    /\ (ordered (items s) -> ordered rest)
    /\ Set_RemoveLastIfBigger s dist =
         Ok (if F32.lt (distance last) dist then (false, s)
             else (true, set_items s rest)).
Proof.
  intros Hn. unfold Set_RemoveLastIfBigger.
  destruct (Node_Last_spec _ Hn nilNode) as (ld & ll & parent & -> & Hcase).
  cbn [bind].
  destruct Hcase as [[Heq ->] | (Hp & He & Ho)].
  - exists ld, ll. rewrite Heq. cbn [entries ordered].
    split; [ reflexivity | ]. split; [ tauto | ].
    destruct (F32.lt (distance ld) dist); reflexivity.
  - exists ld, (write_parent_right (items s) ll).
    split; [ exact He | ]. split; [ exact Ho | ].
    destruct (F32.lt (distance ld) dist); [ reflexivity | ].
    destruct parent; [ congruence | reflexivity ].
Qed.

(** *** The traversal is ascending *)

Lemma StronglySorted_app {A : Type} (R : A -> A -> Prop) (xs ys : list A) :
  StronglySorted R xs -> StronglySorted R ys ->
  (forall x y, In x xs -> In y ys -> R x y) ->
  StronglySorted R (xs ++ ys).
Proof.
  induction xs as [ | x xs IH]; intros Hx Hy Hxy; [ exact Hy | ].
  apply StronglySorted_inv in Hx. destruct Hx as [Hs Hall]. simpl.
  constructor.
  - apply IH; auto. intros a b Ha Hb. apply Hxy; [ right | ]; assumption.
  - apply Forall_app. split; [ exact Hall | ].
    apply Forall_forall. intros y Hy'. apply Hxy; [ left; reflexivity | exact Hy' ].
Qed.

Lemma ordered_sorted n :
  ordered n -> StronglySorted not_closer (entries n).
Proof.
  induction n as [ | d l IHl r IHr]; [ constructor | ].
  cbn [ordered entries]. intros (Hl & Hr & Hol & Hor).
  rewrite Forall_forall in Hl, Hr.
  apply StronglySorted_app; [ auto | | ].
  - constructor; [ auto | ]. apply Forall_forall. intros y Hy.
    exact (Hr y Hy).
  - intros x y Hx [<- | Hy]; unfold not_closer.
    + apply F32Order.lt_asym. exact (Hl x Hx).
    + destruct (F32.lt (distance y) (distance x)) eqn:E; [ | reflexivity ].
      rewrite <- (Hr y Hy). symmetry.
      exact (F32Order.lt_trans _ _ _ E (Hl x Hx)).
Qed.

(** *** [Node.Top] against its specification on sequences *)

Lemma find_app_unvisited (xs ys : list IndexAndDistance) :
  find unvisited (xs ++ ys) =
  match find unvisited xs with
  | Some e => Some e
  | None => find unvisited ys
  end.
Proof.
  induction xs as [ | x xs IH]; [ reflexivity | simpl ].
  destruct (unvisited x); [ reflexivity | exact IH ].
Qed.

Lemma mark_first_app xs ys :
  mark_first (xs ++ ys) =
  match find unvisited xs with
  | Some _ => mark_first xs ++ ys
  | None => xs ++ mark_first ys
  end.
Proof.
  induction xs as [ | x xs IH]; [ reflexivity | simpl ].
  unfold unvisited at 1. destruct (visited x); simpl; [ | reflexivity ].
  rewrite IH. destruct (find unvisited xs); reflexivity.
Qed.

Lemma mark_first_none es :
  find unvisited es = None -> mark_first es = es.
Proof.
  induction es as [ | e es IH]; [ reflexivity | simpl ].
  unfold unvisited at 1. destruct (visited e); simpl; [ | discriminate ].
  intros H. rewrite IH; auto.
Qed.

Lemma mark_first_Forall (Q : float32 -> Prop) es :
  Forall (fun e => Q (distance e)) es ->
  Forall (fun e => Q (distance e)) (mark_first es).
Proof.
  induction 1 as [ | e es He Hes IH]; simpl; [ constructor | ].
  destruct (visited e); constructor; auto.
Qed.

Lemma mark_first_length es : length (mark_first es) = length es.
Proof.
  induction es as [ | e es IH]; simpl; [ reflexivity | ].
  destruct (visited e); simpl; congruence.
Qed.

Lemma Node_Top_spec n :
  n <> nilNode ->
  exists i found n',
    Node_Top n = Ok (i, found, n')
    /\ top_answer (entries n) = (i, found)
    /\ entries n' = mark_first (entries n)
    /\ n' <> nilNode
    /\ (ordered n -> ordered n')
    /\ (found = false -> n' = n).
Proof.
  induction n as [ | d l IHl r IHr]; intros Hn; [ congruence | clear Hn ].
  assert (Hhere : find unvisited (entries l) = None ->
    exists i found n',
      (if negb (visited d)
       then Ok (index d, true, mkNode (mark_visited d) l r)
       else match r with
            | nilNode => Ok (0, false, mkNode d l r)
            | mkNode _ _ _ =>
                '(i, found, r') <- Node_Top r ;; Ok (i, found, mkNode d l r')
            end) = Ok (i, found, n')
      /\ top_answer (entries (mkNode d l r)) = (i, found)
      /\ entries n' = mark_first (entries (mkNode d l r))
      /\ n' <> nilNode
      /\ (ordered (mkNode d l r) -> ordered n')
      /\ (found = false -> n' = mkNode d l r)).
  { intros Hnone. unfold top_answer. cbn [entries].
    rewrite find_app_unvisited, mark_first_app, Hnone. cbn [find mark_first].
    unfold unvisited at 1 2. destruct (visited d) eqn:Hv; cbn [negb].
    - destruct r as [ | rd rl rr].
      + exists 0, false, (mkNode d l nilNode).
        split; [ reflexivity | ]. split; [ reflexivity | ].
        split; [ reflexivity | ]. split; [ discriminate | ]. split; auto.
      + destruct IHr as (i & found & r' & -> & Ha & He & Hr' & Ho & Hsame);
          [ discriminate | ].
        exists i, found, (mkNode d l r'). cbn [bind].
        split; [ reflexivity | ]. split; [ exact Ha | ].
        split; [ cbn [entries]; rewrite He; reflexivity | ].
        split; [ discriminate | ]. split.
        * cbn [ordered]. intros (Hl & Hr & Hol & Hor). quad; auto.
          rewrite He. apply (mark_first_Forall
            (fun x => F32.gt (distance d) x = false)). exact Hr.
        * intros Hf. rewrite (Hsame Hf). reflexivity.
    - exists (index d), true, (mkNode (mark_visited d) l r).
      split; [ reflexivity | ]. split; [ reflexivity | ].
      split; [ reflexivity | ]. split; [ discriminate | ].
      split; [ | discriminate ]. cbn [ordered mark_visited distance]. tauto. }
  cbn [Node_Top]. destruct l as [ | ld ll lr].
  - apply Hhere. reflexivity.
  - destruct IHl as (i & found & l' & -> & Ha & He & Hl' & Ho & Hsame);
      [ discriminate | ].
    cbn [bind]. unfold top_answer in Ha.
    destruct (find unvisited (entries (mkNode ld ll lr))) as [e | ] eqn:Hfind;
      injection Ha as <- <-.
    + exists (index e), true, (mkNode d l' r).
      split; [ reflexivity | ]. unfold top_answer.
      change (entries (mkNode d (mkNode ld ll lr) r))
        with (entries (mkNode ld ll lr) ++ d :: entries r).
      rewrite find_app_unvisited, mark_first_app, Hfind.
      split; [ reflexivity | ].
      split; [ cbn [entries]; rewrite He; reflexivity | ].
      split; [ discriminate | ]. split; [ | discriminate ].
      cbn [ordered]. intros (Hl & Hr & Hol & Hor). quad; auto.
      rewrite He. apply (mark_first_Forall
        (fun x => F32.gt (distance d) x = true)). exact Hl.
    + rewrite (Hsame eq_refl). apply Hhere. reflexivity.
Qed.

(** *** [Node.NotVisited] *)

Lemma Node_NotVisited_spec n :
  n <> nilNode ->
  Node_NotVisited n = Ok (existsb unvisited (entries n)).
Proof.
  induction n as [ | d l IHl r IHr]; intros Hn; [ congruence | clear Hn ].
  cbn [Node_NotVisited entries]. rewrite existsb_app. cbn [existsb].
  unfold unvisited at 2. destruct (negb (visited d)).
  - rewrite orb_true_r. reflexivity.
  - cbn [orb].
    assert (Hl : match l with
                 | nilNode => Ok false
                 | mkNode _ _ _ => Node_NotVisited l
                 end = Ok (existsb unvisited (entries l))).
    { destruct l; [ reflexivity | apply IHl; discriminate ]. }
    assert (Hr : match r with
                 | nilNode => Ok false
                 | mkNode _ _ _ => Node_NotVisited r
                 end = Ok (existsb unvisited (entries r))).
    { destruct r; [ reflexivity | apply IHr; discriminate ]. }
    rewrite Hl. cbn [bind].
    destruct (existsb unvisited (entries l)); [ reflexivity | exact Hr ].
Qed.

(** *** [Node.Elements] and [Set.Elements] *)

Lemma int_incr_of_nat (k : nat) :
  Z.of_nat k < int_max -> int_incr (Z.of_nat k) = Z.of_nat (S k).
Proof.
  unfold int_incr, int_wrap, int_max. intros H.
  rewrite Z.mod_small by lia. lia.
Qed.

Lemma store_at_spec pre x post v :
  store_at (pre ++ x :: post) (Z.of_nat (length pre)) v = Ok (pre ++ v :: post).
Proof.
  unfold store_at.
  destruct (Z.ltb_spec (Z.of_nat (length pre)) 0) as [H | _]; [ lia | ].
  rewrite Nat2Z.id.
  induction pre as [ | p pre IH]; [ reflexivity | ].
  simpl. rewrite IH. reflexivity.
Qed.

Lemma split_middle {A : Type} (mid : list A) (a b : nat) :
  length mid = (a + S b)%nat ->
  exists ml x mr, mid = ml ++ x :: mr /\ length ml = a /\ length mr = b.
Proof.
  revert mid. induction a as [ | a IH]; intros mid H.
  - destruct mid as [ | x mr]; [ discriminate | ].
    exists [], x, mr. simpl in *. repeat split. lia.
  - destruct mid as [ | y mid]; [ discriminate | ].
    destruct (IH mid) as (ml & x & mr & -> & Hl & Hr); [ simpl in H; lia | ].
    exists (y :: ml), x, mr. simpl. repeat split; auto.
Qed.

Lemma Node_Elements_spec n :
  n <> nilNode ->
  forall pre mid post,
    length mid = length (entries n) ->
    Z.of_nat (length pre + length mid) <= int_max ->
    Node_Elements n (pre ++ mid ++ post) (Z.of_nat (length pre)) =
      Ok (pre ++ map index (entries n) ++ post,
          Z.of_nat (length pre + length mid)).
Proof.
  induction n as [ | d l IHl r IHr]; intros Hn pre mid post Hlen Hmax;
    [ congruence | clear Hn ].
  cbn [entries] in Hlen. rewrite length_app in Hlen. cbn [length] in Hlen.
  destruct (split_middle _ _ _ Hlen) as (ml & x & mr & -> & Hml & Hmr).
  rewrite length_app in Hmax. cbn [length] in Hmax.
  cbn [Node_Elements].
  assert (HL : match l with
               | nilNode => Ok (pre ++ (ml ++ x :: mr) ++ post, Z.of_nat (length pre))
               | mkNode _ _ _ =>
                   Node_Elements l (pre ++ (ml ++ x :: mr) ++ post)
                     (Z.of_nat (length pre))
               end
               = Ok ((pre ++ map index (entries l)) ++ x :: mr ++ post,
                     Z.of_nat (length (pre ++ map index (entries l))))).
  { rewrite length_app, length_map, <- Hml.
    destruct l as [ | ld ll lr].
    - destruct ml; [ | discriminate Hml ]. simpl.
      rewrite app_nil_r, Nat.add_0_r. reflexivity.
    - rewrite <- (app_assoc ml (x :: mr) post).
      rewrite (IHl ltac:(discriminate) pre ml ((x :: mr) ++ post) Hml)
        by lia.
      rewrite <- app_assoc. reflexivity. }
  rewrite HL. cbn [bind]. rewrite store_at_spec. cbn [bind].
  rewrite int_incr_of_nat
    by (rewrite length_app, length_map, <- Hml; lia).
  assert (Hpre : S (length (pre ++ map index (entries l)))
                 = length ((pre ++ map index (entries l)) ++ [index d])).
  { rewrite (length_app _ [index d]). simpl. lia. }
  rewrite Hpre.
  assert (Hbuf : (pre ++ map index (entries l)) ++ index d :: mr ++ post
                 = ((pre ++ map index (entries l)) ++ [index d]) ++ mr ++ post).
  { rewrite <- (app_assoc _ [index d]). reflexivity. }
  rewrite Hbuf.
  assert (Hout : pre ++ map index (entries (mkNode d l r)) ++ post
                 = ((pre ++ map index (entries l)) ++ [index d])
                     ++ map index (entries r) ++ post).
  { cbn [entries]. rewrite map_app. cbn [map].
    rewrite <- !app_assoc. reflexivity. }
  assert (Hoff : (length pre + length (ml ++ x :: mr))%nat
                 = (length ((pre ++ map index (entries l)) ++ [index d])
                    + length mr)%nat).
  { rewrite <- Hpre, !length_app, length_map. simpl. lia. }
  rewrite Hout, Hoff.
  destruct r as [ | rd rl rr].
  - destruct mr; [ | discriminate Hmr ]. simpl.
    rewrite Nat.add_0_r. reflexivity.
  - apply (IHr ltac:(discriminate)); [ exact Hmr | ].
    rewrite <- Hoff, length_app. simpl. lia.
Qed.

Lemma Set_Elements_spec s :
  items s <> nilNode ->
  Z.of_nat (length (entries (items s))) <= size s ->
  size s <= int_max ->
  Set_Elements s = Ok (map index (entries (items s))).
Proof.
  intros Hn Hcount Hmax. unfold Set_Elements, make_slice.
  destruct (Z.ltb_spec (size s) 0) as [H | _]; [ lia | ]. cbn [bind].
  set (k := length (entries (items s))) in *.
  assert (Hsplit : repeat 0 (Z.to_nat (size s))
                   = [] ++ repeat 0 k ++ repeat 0 (Z.to_nat (size s) - k)).
  { simpl. rewrite <- repeat_app. f_equal. lia. }
  rewrite Hsplit.
  change 0 with (Z.of_nat (length (@nil Z))) at 3.
  rewrite (Node_Elements_spec _ Hn [] (repeat 0 k));
    [ | apply repeat_length | rewrite repeat_length; simpl; lia ].
  cbn [bind app length Nat.add]. rewrite repeat_length.
  unfold slice_to. rewrite length_app, length_map. fold k.
  destruct (Z.ltb_spec (Z.of_nat k) 0) as [H | _]; [ lia | ].
  destruct (Z.ltb_spec (Z.of_nat (k + length (repeat 0 (Z.to_nat (size s) - k))))
              (Z.of_nat k)) as [H | _]; [ lia | ].
  cbn [orb]. rewrite Nat2Z.id.
  rewrite firstn_app, length_map. fold k. rewrite Nat.sub_diag. simpl.
  rewrite app_nil_r. f_equal. apply firstn_all2. rewrite length_map. fold k. lia.
Qed.

(** ** The invariant of a set *)

Lemma int_incr_small z : 0 <= z < int_max -> int_incr z = z + 1.
Proof.
  unfold int_incr, int_wrap, int_max. intros H.
  rewrite Z.mod_small by lia. lia.
Qed.

Lemma int_decr_small z : 0 < z <= int_max -> int_decr z = z - 1.
Proof.
  unfold int_decr, int_wrap, int_max. intros H.
  rewrite Z.mod_small by lia. lia.
Qed.

Lemma Inv_NewSet L vf dist c :
  0 <= L <= int_max -> Inv (NewSet L vf dist c).
Proof.
  intros H. constructor; simpl; auto; lia.
Qed.

Lemma Set_Add_place_spec s x dist :
  0 <= size s < int_max ->
  exists n',
    Set_Add_place s x dist =
      Ok (mkSet n' (vectorForID s) (distanceFn s) (center s) (capacity s)
            (size s + 1))
    /\ n' <> nilNode
    /\ ((n' = items s /\ In x (map index (entries (items s))))
        \/ inserted (mkIAD x dist false) (entries (items s)) (entries n'))
    /\ (ordered (items s) -> ordered n').
Proof.
  intros Hsz. unfold Set_Add_place. cbn [set_size items size].
  rewrite (int_incr_small _ Hsz).
  destruct (items s) as [ | d l r] eqn:Hi.
  - exists (leaf (mkIAD x dist false)). quad; try discriminate.
    + reflexivity.
    + right. exists [], []. split; reflexivity.
    + intros _. simpl. auto.
  - destruct (Node_Add_spec (mkNode d l r) (mkIAD x dist false))
      as (n' & Hadd & Hn' & Hg & Ho); [ discriminate | ].
    exists n'. rewrite Hadd. quad; auto.
Qed.

Lemma placed_length x data n n' es :
  (n' = n /\ In x (map index es)) \/ inserted data es (entries n') ->
  es = entries n ->
  (length (entries n') <= S (length es))%nat.
Proof.
  intros [[-> _] | Hins] ->; [ lia | ].
  rewrite (inserted_length _ _ _ Hins). lia.
Qed.

Lemma Set_Add_Inv s x s' :
  Inv s -> Set_Add s x = Ok s' ->
  Inv s' /\ capacity s' = capacity s /\ items s' <> nilNode.
Proof.
  intros HI. pose proof HI as [Ho Hc Hs Hcap Hseed]. unfold Set_Add.
  destruct (vectorForID s x) as [vec err].
  set (dist := distanceFn s vec (center s)).
  assert (Hlen := Nat2Z.is_nonneg (length (entries (items s)))).
  destruct (Z.eqb_spec (size s) (capacity s)) as [Hfull | Hroom].
  - assert (Hcase : items s = nilNode \/ items s <> nilNode)
      by (destruct (items s); [ left | right ]; congruence).
    destruct Hcase as [Hnil | Hi].
    { unfold Set_RemoveLastIfBigger. rewrite Hnil. cbn. discriminate. }
    destruct (Set_RemoveLastIfBigger_spec s dist Hi)
      as (last & rest & He & Hor & ->).
    rewrite He, length_app in Hc. simpl in Hc.
    destruct (F32.lt (distance last) dist); cbn [bind negb].
    + intros [= <-]. split; [ exact HI | split; [ reflexivity | exact Hi ] ].
    + cbn [set_items set_size size].
      rewrite int_decr_small by lia.
      destruct (Set_Add_place_spec
                  (set_size (set_items s rest) (size s - 1)) x dist)
        as (n' & Hp & Hn' & Hg & Hon); [ simpl; lia | ].
      unfold set_size, set_items in Hp |- *. cbn in Hp |- *. rewrite Hp.
      intros [= <-]. cbn. split; [ | split; [ reflexivity | exact Hn' ] ].
      apply placed_length in Hg; [ | reflexivity ]. cbn in Hg, Hon.
      constructor; cbn; auto; try lia. intros Hnil. contradiction.
  - destruct (Set_Add_place_spec s x dist) as (n' & -> & Hn' & Hg & Hon);
      [ lia | ].
    intros [= <-]. cbn. split; [ | split; [ reflexivity | exact Hn' ] ].
    apply placed_length in Hg; [ | reflexivity ].
    constructor; cbn; auto; try lia. intros Hnil. contradiction.
Qed.

Lemma Set_Add_total s x :
  Inv s -> 1 <= capacity s -> exists s', Set_Add s x = Ok s'.
Proof.
  intros [Ho Hc Hs Hcap Hseed] Hpos. unfold Set_Add.
  destruct (vectorForID s x) as [vec err].
  set (dist := distanceFn s vec (center s)).
  assert (Hlen := Nat2Z.is_nonneg (length (entries (items s)))).
  destruct (Z.eqb_spec (size s) (capacity s)) as [Hfull | Hroom].
  - destruct (Set_RemoveLastIfBigger_spec s dist) as (last & rest & He & Hor & ->).
    { intros Hnil. specialize (Hseed Hnil). lia. }
    rewrite He, length_app in Hc. simpl in Hc.
    destruct (F32.lt (distance last) dist); cbn [bind negb];
      [ eexists; reflexivity | ].
    cbn [set_items set_size size]. rewrite int_decr_small by lia.
    destruct (Set_Add_place_spec
                (set_size (set_items s rest) (size s - 1)) x dist)
      as (n' & Hp & _); [ simpl; lia | ].
    unfold set_size, set_items in Hp |- *. cbn in Hp |- *. rewrite Hp.
    eexists; reflexivity.
  - destruct (Set_Add_place_spec s x dist) as (n' & -> & _); [ lia | ].
    eexists; reflexivity.
Qed.

Lemma Set_AddRange_Inv xs : forall s s',
  Inv s -> Set_AddRange s xs = Ok s' ->
  Inv s' /\ capacity s' = capacity s.
Proof.
  induction xs as [ | x xs IH]; intros s s' HI; cbn [Set_AddRange].
  - intros [= <-]. split; [ exact HI | reflexivity ].
  - destruct (Set_Add s x) as [s1 | p] eqn:Hadd; cbn [bind]; [ | discriminate ].
    destruct (Set_Add_Inv _ _ _ HI Hadd) as (HI1 & Hc1 & _).
    intros H. destruct (IH _ _ HI1 H) as (HI' & Hc'). split; [ auto | congruence ].
Qed.

Lemma Set_AddRange_total xs : forall s,
  Inv s -> 1 <= capacity s -> exists s', Set_AddRange s xs = Ok s'.
Proof.
  induction xs as [ | x xs IH]; intros s HI Hpos; cbn [Set_AddRange].
  - eexists; reflexivity.
  - destruct (Set_Add_total s x HI Hpos) as (s1 & Hadd). rewrite Hadd. cbn [bind].
    destruct (Set_Add_Inv _ _ _ HI Hadd) as (HI1 & Hc1 & _).
    apply IH; [ exact HI1 | lia ].
Qed.

Lemma Set_Top_Inv s x s' :
  Inv s -> Set_Top s = Ok (x, s') ->
  Inv s' /\ capacity s' = capacity s.
Proof.
  intros [Ho Hc Hs Hcap Hseed]. unfold Set_Top.
  destruct (items s) as [ | d l r] eqn:Hi; [ discriminate | ].
  destruct (Node_Top_spec (mkNode d l r))
    as (i & found & n' & -> & _ & He & Hn' & Hon & _); [ discriminate | ].
  cbn [bind]. intros [= <- <-]. cbn. split; [ | reflexivity ].
  constructor; cbn; auto; try congruence.
  rewrite He, mark_first_length. exact Hc.
Qed.

Lemma run_Inv calls : forall s tops s',
  Inv s -> run s calls = Ok (tops, s') ->
  Inv s' /\ capacity s' = capacity s.
Proof.
  induction calls as [ | c calls IH]; intros s tops s' HI; cbn [run].
  - intros [= <- <-]. split; [ exact HI | reflexivity ].
  - destruct c as [x | xs | ].
    + destruct (Set_Add s x) as [s1 | p] eqn:H1; cbn [bind]; [ | discriminate ].
      destruct (Set_Add_Inv _ _ _ HI H1) as (HI1 & Hc1 & _).
      intros H. destruct (IH _ _ _ HI1 H). split; [ auto | congruence ].
    + destruct (Set_AddRange s xs) as [s1 | p] eqn:H1; cbn [bind]; [ | discriminate ].
      destruct (Set_AddRange_Inv _ _ _ HI H1) as (HI1 & Hc1).
      intros H. destruct (IH _ _ _ HI1 H). split; [ auto | congruence ].
    + destruct (Set_Top s) as [[x s1] | p] eqn:H1; cbn [bind]; [ | discriminate ].
      destruct (Set_Top_Inv _ _ _ HI H1) as (HI1 & Hc1).
      destruct (run s1 calls) as [[tops1 s2] | p] eqn:H2; cbn [bind];
        [ | discriminate ].
      intros [= <- <-]. destruct (IH _ _ _ HI1 H2). split; [ auto | congruence ].
Qed.

Lemma run_adds_total calls : forall s,
  Inv s -> 1 <= capacity s -> forallb is_add calls = true ->
  exists s', run s calls = Ok ([], s').
Proof.
  induction calls as [ | c calls IH]; intros s HI Hpos Hadds; cbn [run].
  - eexists; reflexivity.
  - cbn [forallb] in Hadds. apply andb_true_iff in Hadds.
    destruct Hadds as [Hc Hrest]. destruct c as [x | xs | ]; [ | | discriminate ].
    + destruct (Set_Add_total s x HI Hpos) as (s1 & H1). rewrite H1. cbn [bind].
      destruct (Set_Add_Inv _ _ _ HI H1) as (HI1 & Hc1 & _).
      apply IH; [ exact HI1 | lia | exact Hrest ].
    + destruct (Set_AddRange_total xs s HI Hpos) as (s1 & H1). rewrite H1.
      cbn [bind]. destruct (Set_AddRange_Inv _ _ _ HI H1) as (HI1 & Hc1).
      apply IH; [ exact HI1 | lia | exact Hrest ].
Qed.

(** ** Facts about sequences used by the main results *)

Lemma set_items_same s : set_items s (items s) = s.
Proof. destruct s; reflexivity. Qed.

Lemma find_unvisited_split es e :
  find unvisited es = Some e ->
  exists pre post,
    es = pre ++ e :: post
    /\ Forall (fun u => visited u = true) pre
    /\ visited e = false
    /\ mark_first es = pre ++ mark_visited e :: post.
Proof.
  induction es as [ | a es IH]; [ discriminate | ].
  cbn [find mark_first]. unfold unvisited at 1.
  destruct (visited a) eqn:Hv; cbn [negb].
  - intros H. destruct (IH H) as (pre & post & -> & Hpre & He & Hm).
    exists (a :: pre), post. rewrite Hm. repeat split; auto.
  - intros [= <-]. exists [], es. repeat split; auto.
Qed.

Lemma find_unvisited_none es :
  find unvisited es = None -> Forall (fun u => visited u = true) es.
Proof.
  induction es as [ | a es IH]; [ constructor | ].
  cbn [find]. unfold unvisited at 1.
  destruct (visited a) eqn:Hv; cbn [negb]; [ | discriminate ].
  intros H. constructor; auto.
Qed.

Lemma existsb_find_unvisited es :
  existsb unvisited es =
  match find unvisited es with Some _ => true | None => false end.
Proof.
  induction es as [ | a es IH]; [ reflexivity | ].
  cbn [existsb find]. destruct (unvisited a); [ reflexivity | exact IH ].
Qed.

Lemma all_visited_find es :
  Forall (fun u => visited u = true) es -> find unvisited es = None.
Proof.
  induction 1 as [ | a es Ha _ IH]; [ reflexivity | ].
  cbn [find]. unfold unvisited at 1. rewrite Ha. exact IH.
Qed.

Lemma sorted_last_farthest kept last :
  StronglySorted not_closer (kept ++ [last]) ->
  Forall (fun e => not_closer e last) (kept ++ [last]).
Proof.
  induction kept as [ | a kept IH]; simpl; intros H.
  - constructor; [ apply F32Order.lt_irrefl | constructor ].
  - apply StronglySorted_inv in H. destruct H as [Hs Hall].
    constructor; [ | apply IH; exact Hs ].
    rewrite Forall_forall in Hall. apply Hall.
    apply in_or_app. right. left. reflexivity.
Qed.

Lemma sorted_first_unvisited pre e post :
  StronglySorted not_closer (pre ++ e :: post) ->
  Forall (fun u => visited u = true) pre ->
  forall u, In u (pre ++ e :: post) -> visited u = false -> not_closer e u.
Proof.
  induction pre as [ | a pre IH]; simpl; intros Hs Hpre u Hin Hu.
  - apply StronglySorted_inv in Hs. destruct Hs as [_ Hall].
    destruct Hin as [<- | Hin]; [ apply F32Order.lt_irrefl | ].
    rewrite Forall_forall in Hall. exact (Hall u Hin).
  - apply StronglySorted_inv in Hs. destruct Hs as [Hs _].
    apply Forall_cons_iff in Hpre. destruct Hpre as [Ha Hpre].
    destruct Hin as [<- | Hin]; [ congruence | ].
    exact (IH Hs Hpre u Hin Hu).
Qed.

Lemma sorted_le_without_nan es :
  StronglySorted not_closer es ->
  Forall (fun e => F32.is_nan (distance e) = false) es ->
  StronglySorted (fun a b => F32.le (distance a) (distance b) = true) es.
Proof.
  induction 1 as [ | a es Hs IH Hall]; intros Hnan; [ constructor | ].
  apply Forall_cons_iff in Hnan. destruct Hnan as [Ha Hes].
  constructor; [ exact (IH Hes) | ].
  rewrite Forall_forall in *. intros b Hb.
  apply F32Order.not_lt_le; auto. exact (Hall b Hb).
Qed.

Lemma Node_count_entries n : length (entries n) = Node_count n.
Proof.
  induction n as [ | d l IHl r IHr]; [ reflexivity | ].
  cbn [entries Node_count]. rewrite length_app. simpl. lia.
Qed.

(** ** [Add] on a full set, and duplicates *)

(** [Add] on a full set of capacity at least 1, case by case on what
    [RemoveLastIfBigger] sees. *)
Lemma Set_Add_full_cases s x :
  Inv s -> 1 <= capacity s -> size s = capacity s ->
  exists kept last,
    entries (items s) = kept ++ [last]
    /\ Forall (fun e => not_closer e last) (entries (items s))
    /\ (F32.lt (distance last) (candidate_distance s x) = true ->
        Set_Add s x = Ok s)
    /\ (F32.lt (distance last) (candidate_distance s x) = false ->
        ~ In x (map index kept) ->
        exists s',
          Set_Add s x = Ok s'
          /\ Set_Size s' = Set_Size s
          /\ Inv s'
          /\ inserted (mkIAD x (candidate_distance s x) false) kept
               (entries (items s'))).
Proof.
  intros HI Hpos Hfull. pose proof HI as [Ho Hc Hs Hcap Hseed].
  assert (Hn : items s <> nilNode).
  { intros Hnil. specialize (Hseed Hnil). lia. }
  destruct (Set_RemoveLastIfBigger_spec s (candidate_distance s x) Hn)
    as (last & rest & He & Hor & HR).
  exists (entries rest), last. split; [ exact He | ].
  split.
  { rewrite He. apply sorted_last_farthest. rewrite <- He.
    apply ordered_sorted. exact Ho. }
  assert (Hunf : Set_Add s x =
    ('(removed, s1) <- Set_RemoveLastIfBigger s (candidate_distance s x) ;;
     if negb removed then Ok s1
     else Set_Add_place (set_size s1 (int_decr (size s1))) x
            (candidate_distance s x))).
  { unfold Set_Add, candidate_distance.
    destruct (vectorForID s x) as [vec e]. cbn [fst].
    rewrite Hfull, Z.eqb_refl. reflexivity. }
  split.
  - intros Hlt. rewrite Hunf, HR, Hlt. reflexivity.
  - intros Hlt Hfresh. rewrite Hunf. rewrite HR, Hlt. cbn [bind negb].
    rewrite He, length_app in Hc. simpl in Hc.
    cbn [set_items set_size size]. rewrite int_decr_small by lia.
    destruct (Set_Add_place_spec
                (set_size (set_items s rest) (size s - 1)) x
                (candidate_distance s x))
      as (n' & Hp & Hn' & Hg & Hon); [ simpl; lia | ].
    unfold set_size, set_items in Hp |- *. cbn in Hp |- *.
    eexists. split; [ exact Hp | ].
    assert (Hadd : Set_Add s x = Ok
              (mkSet n' (vectorForID s) (distanceFn s) (center s) (capacity s)
                 (size s - 1 + 1))).
    { rewrite Hunf, HR, Hlt. cbn [bind negb].
      cbn [set_items set_size size]. rewrite int_decr_small by lia.
      exact Hp. }
    split; [ unfold Set_Size; cbn; lia | ].
    split; [ exact (proj1 (Set_Add_Inv _ _ _ HI Hadd)) | ].
    cbn in Hg |- *. destruct Hg as [[_ Hin] | Hins]; [ | exact Hins ].
    exfalso. apply Hfresh. exact Hin.
Qed.

(** In an ordered tree [Node.Add] finds an entry that has the index and
    the distance of the one it is given, and returns without a change. *)
Lemma Node_Add_duplicate n data e :
  ordered n -> In e (entries n) ->
  index e = index data -> distance e = distance data ->
  Node_Add n data = Ok n.
Proof.
  induction n as [ | d l IHl r IHr]; intros Ho Hin Hi Hd; [ destruct Hin | ].
  cbn [ordered] in Ho. destruct Ho as (Hl & Hr & Hol & Hor).
  cbn [Node_Add].
  destruct (Z.eqb_spec (index d) (index data)) as [Heq | Hne]; [ reflexivity | ].
  cbn [entries] in Hin. apply in_app_or in Hin.
  rewrite Forall_forall in Hl, Hr.
  destruct Hin as [Hin | [-> | Hin]]; [ | congruence | ].
  - rewrite <- Hd, (Hl e Hin).
    destruct l as [ | ld ll lr]; [ destruct Hin | ].
    rewrite (IHl Hol Hin Hi Hd). reflexivity.
  - rewrite <- Hd, (Hr e Hin).
    destruct r as [ | rd rl rr]; [ destruct Hin | ].
    rewrite (IHr Hor Hin Hi Hd). reflexivity.
Qed.

(** On a set with room, [Add] of an ID that is stored (at the distance
    [Add] computes for it) changes the size and nothing else. *)
Lemma Set_Add_duplicate_counts s x e :
  Inv s -> size s < capacity s ->
  In e (entries (items s)) ->
  index e = x -> distance e = candidate_distance s x ->
  Set_Add s x = Ok (set_size s (size s + 1)).
Proof.
  intros [Ho Hc Hs Hcap Hseed] Hroom Hin Hi Hd.
  assert (Hlen := Nat2Z.is_nonneg (length (entries (items s)))).
  unfold Set_Add, candidate_distance in *.
  destruct (vectorForID s x) as [vec err]. cbn [fst] in Hd.
  destruct (Z.eqb_spec (size s) (capacity s)) as [Hfull | _]; [ lia | ].
  unfold Set_Add_place. cbn [set_size items size].
  rewrite int_incr_small by lia.
  destruct (items s) as [ | d l r] eqn:Hitems; [ destruct Hin | ].
  rewrite (Node_Add_duplicate (mkNode d l r) (mkIAD x _ false) e Ho Hin Hi Hd).
  cbn [bind]. unfold set_items, set_size. cbn. rewrite Hitems. reflexivity.
Qed.

(** On a full set, [Add] of the ID of the farthest entry takes that entry
    out and stores the ID again, unvisited. *)
Lemma Set_Add_duplicate_of_last s x :
  Inv s -> 1 <= capacity s -> size s = capacity s ->
  exists kept last,
    entries (items s) = kept ++ [last]
    /\ (index last = x -> distance last = candidate_distance s x ->
        ~ In x (map index kept) ->
        exists s',
          Set_Add s x = Ok s'
          /\ inserted (mkIAD x (candidate_distance s x) false) kept
               (entries (items s'))).
Proof.
  intros HI Hpos Hfull.
  destruct (Set_Add_full_cases s x HI Hpos Hfull)
    as (kept & last & He & _ & _ & Hevict).
  exists kept, last. split; [ exact He | ].
  intros _ Hd Hfresh. rewrite <- Hd in Hevict.
  destruct (Hevict (F32Order.lt_irrefl _) Hfresh) as (s' & Hadd & _ & _ & Hins).
  rewrite <- Hd. exists s'. split; assumption.
Qed.

(** * Main results *)

(** *** Fetch failures *)

(** C1, as stated, fails: with a vector source whose every fetch fails,
    [Add(7)] on a fresh set of capacity 1 returns normally and the set then
    holds the entry 7; no error reaches the caller. *)
Lemma Add_returns_normally_on_fetch_failure :
  snd (failing_source 7) = Some 1%nat
  /\ rmap ids_and_size (Set_Add (NewSet 1 failing_source sqEuclid origin) 7)
     = Ok ([7], 1).
Proof. split; reflexivity. Qed.

Lemma Set_Add_place_source s v x dist :
  rmap content (Set_Add_place (set_vectorForID s v) x dist)
  = rmap content (Set_Add_place s x dist).
Proof.
  unfold Set_Add_place. cbn.
  destruct (items s) as [ | d l r]; [ reflexivity | ].
  destruct (Node_Add (mkNode d l r) (mkIAD x dist false)); reflexivity.
Qed.

Lemma Set_Add_source s v x :
  fst (v x) = fst (vectorForID s x) ->
  rmap content (Set_Add (set_vectorForID s v) x) = rmap content (Set_Add s x).
Proof.
  intros Hv. unfold Set_Add.
  change (vectorForID (set_vectorForID s v) x) with (v x).
  change (distanceFn (set_vectorForID s v)) with (distanceFn s).
  change (center (set_vectorForID s v)) with (center s).
  change (size (set_vectorForID s v)) with (size s).
  change (capacity (set_vectorForID s v)) with (capacity s).
  destruct (v x) as [vec e], (vectorForID s x) as [vec' e'].
  cbn in Hv. subst vec'.
  destruct (size s =? capacity s); [ | apply Set_Add_place_source ].
  unfold Set_RemoveLastIfBigger.
  change (items (set_vectorForID s v)) with (items s).
  destruct (Node_Last (items s) nilNode) as [[last parent] | p];
    [ | reflexivity ].
  cbn [bind]. destruct last as [ | ld ll lr]; [ reflexivity | ].
  destruct (F32.lt (distance ld) (distanceFn s vec (center s)));
    [ reflexivity | ].
  destruct parent as [ | pd pl pr].
  - destruct (items s) as [ | d l r]; [ reflexivity | ].
    cbn [bind negb].
    exact (Set_Add_place_source (set_size (set_items s l) (int_decr (size s)))
             v x _).
  - cbn [bind negb].
    exact (Set_Add_place_source
             (set_size (set_items s (write_parent_right (items s) ll))
                (int_decr (size s))) v x _).
Qed.

(** C1, amended: [Add] discards the error of the fetch.  What it does is
    fixed by the vector the fetch returned: it is the same as with a
    source that returns that vector and no error; and on a set of capacity
    at least 1 it returns normally, whatever the fetch reported. *)
Theorem Set_Add_discards_fetch_error s x :
  rmap content (Set_Add (set_vectorForID s (drop_errors (vectorForID s))) x)
  = rmap content (Set_Add s x)
  /\ (Inv s -> 1 <= capacity s -> exists s', Set_Add s x = Ok s').
Proof.
  split; [ apply Set_Add_source; reflexivity | apply Set_Add_total ].
Qed.

Lemma Set_Add_discards_fetch_error_witness :
  Inv (NewSet 1 failing_source sqEuclid origin)
  /\ 1 <= capacity (NewSet 1 failing_source sqEuclid origin)
  /\ exists s', Set_Add (NewSet 1 failing_source sqEuclid origin) 7 = Ok s'.
Proof.
  assert (HI : Inv (NewSet 1 failing_source sqEuclid origin))
    by (apply Inv_NewSet; unfold int_max; lia).
  assert (Hc : 1 <= capacity (NewSet 1 failing_source sqEuclid origin))
    by (simpl; lia).
  split; [ exact HI | split; [ exact Hc | ] ].
  exact (proj2 (Set_Add_discards_fetch_error
                  (NewSet 1 failing_source sqEuclid origin) 7) HI Hc).
Defined.

(** *** Duplicate IDs *)

(** C2 does not hold of the code.  On a set of capacity 3 holding the one
    entry 1, a second [Add(1)] leaves the entry alone but raises [Size()]
    from 1 to 2.  On a full set of capacity 2 holding 1 and 2, [Add(1)]
    evicts the entry 2 and stores nothing in its place. *)
Theorem duplicate_Add_is_not_a_noop :
  let fresh L := NewSet L line_source sqEuclid origin in
  rmap ids_and_size (Set_AddRange (fresh 3) [1]) = Ok ([1], 1)
  /\ rmap ids_and_size (Set_AddRange (fresh 3) [1; 1]) = Ok ([1], 2)
  /\ rmap ids_and_size (Set_AddRange (fresh 2) [1; 2]) = Ok ([1; 2], 2)
  /\ rmap ids_and_size (Set_AddRange (fresh 2) [1; 2; 1]) = Ok ([1], 2).
Proof. repeat split; vm_compute; reflexivity. Qed.

(** *** Visited entries *)

(** C4 does not hold of the code.  On a set of capacity 1: [Add(5)], [Top]
    returns 5, [Add(5)] again, and [Top] returns 5 a second time.  The
    second [Add] evicts the visited entry (its distance is not smaller than
    the candidate's) and stores the ID afresh, unvisited. *)
Theorem Top_returns_an_id_twice :
  rmap fst (run (NewSet 1 line_source sqEuclid origin)
              [CallAdd 5; CallTop; CallAdd 5; CallTop])
  = Ok [5; 5].
Proof. vm_compute. reflexivity. Qed.

(** *** The empty set *)

(** C9: on a freshly constructed set, [NotVisited] and [Top] dereference
    the nil root and panic. *)
Theorem empty_set_panics L vf dist c :
  Set_NotVisited (NewSet L vf dist c) = Panic NilDereference
  /\ Set_Top (NewSet L vf dist c) = Panic NilDereference.
Proof. split; reflexivity. Qed.

(** *** An exhausted set *)

Lemma live_zero_reached :
  Set_Add (NewSet 1 line_source sqEuclid origin) 0 = Ok live_zero.
Proof. reflexivity. Qed.

(** C10: on a non-empty set whose entries are all visited, [Node.Top]
    answers [(0, false)], and [Set.Top] hands on the 0 alone, leaving the
    set as it was.  Every set whose first unvisited entry has the ID 0 gets
    the same answer from [Set.Top]; [live_zero] is such a set. *)
Theorem Top_of_exhausted_set s :
  items s <> nilNode ->
  Forall (fun e => visited e = true) (entries (items s)) ->
  Node_Top (items s) = Ok (0, false, items s)
  /\ Set_Top s = Ok (0, s)
  /\ Set_NotVisited s = Ok false
  /\ (forall s2 e,
        items s2 <> nilNode ->
        find unvisited (entries (items s2)) = Some e -> index e = 0 ->
        Set_NotVisited s2 = Ok true
        /\ rmap fst (Set_Top s2) = rmap fst (Set_Top s))
  /\ find unvisited (entries (items live_zero))
     = Some (mkIAD 0 F32.zero false).
Proof.
  intros Hn Hall. apply all_visited_find in Hall.
  destruct (Node_Top_spec _ Hn) as (i & found & n' & HT & Ha & _ & _ & _ & Hsame).
  unfold top_answer in Ha. rewrite Hall in Ha. injection Ha as <- <-.
  rewrite (Hsame eq_refl) in HT.
  assert (HS : Set_Top s = Ok (0, s)).
  { unfold Set_Top. rewrite HT. cbn [bind]. rewrite set_items_same. reflexivity. }
  split; [ exact HT | ]. split; [ exact HS | ].
  split.
  { unfold Set_NotVisited. rewrite (Node_NotVisited_spec _ Hn).
    rewrite existsb_find_unvisited, Hall. reflexivity. }
  split; [ | reflexivity ].
  intros s2 e Hn2 Hfind He. split.
  - unfold Set_NotVisited. rewrite (Node_NotVisited_spec _ Hn2).
    rewrite existsb_find_unvisited, Hfind. reflexivity.
  - rewrite HS.
    destruct (Node_Top_spec _ Hn2) as (i & found & n2 & HT2 & Ha2 & _).
    unfold top_answer in Ha2. rewrite Hfind in Ha2. injection Ha2 as <- <-.
    unfold Set_Top. rewrite HT2, He. reflexivity.
Qed.


Lemma spent_seven_reached :
  rmap snd (run (NewSet 1 line_source sqEuclid origin) [CallAdd 7; CallTop])
  = Ok spent_seven.
Proof. reflexivity. Qed.

Lemma Top_of_exhausted_set_witness :
  Set_Top spent_seven = Ok (0, spent_seven)
  /\ rmap fst (Set_Top live_zero) = rmap fst (Set_Top spent_seven).
Proof.
  assert (Hn : items spent_seven <> nilNode) by (simpl; discriminate).
  assert (Hall : Forall (fun e => visited e = true) (entries (items spent_seven)))
    by (simpl; constructor; [ reflexivity | constructor ]).
  destruct (Top_of_exhausted_set spent_seven Hn Hall) as (_ & HS & _ & Hsame & Hz).
  split; [ exact HS | ].
  refine (proj2 (Hsame live_zero _ _ Hz eq_refl)). simpl. discriminate.
Defined.

(** *** A full set *)

(** C3 does not hold of the code.  Around the center 3 the IDs 2 and 4
    are equally far; on a full set of capacity 1 holding 2, [Add(4)] is no
    no-op: it evicts 2 and stores 4, because [RemoveLastIfBigger] declines
    only when the last distance is strictly smaller.  The ties also bring
    back a visited ID: after [Add(2)] and [Top], the calls [Add(4)] and
    [Add(2)], neither of an ID the set holds, store 2 afresh and [Top]
    returns it a second time. *)
Theorem tie_evicts_the_farthest :
  let fresh := NewSet 1 line_source sqEuclid [F32.of_Z 3] in
  candidate_distance fresh 4 = candidate_distance fresh 2
  /\ F32.is_float32 (candidate_distance fresh 2) = true
  /\ rmap ids_and_size (Set_AddRange fresh [2]) = Ok ([2], 1)
  /\ rmap ids_and_size (Set_AddRange fresh [2; 4]) = Ok ([4], 1)
  /\ rmap fst (run fresh [CallAdd 2; CallTop; CallAdd 4; CallAdd 2; CallTop])
     = Ok [2; 2].
Proof. repeat split; vm_compute; reflexivity. Qed.

(** What the code does on a full set of capacity at least 1, the tie of
    the preceding result included.  The last entry of the traversal is a
    farthest one.  [Add] of a candidate strictly farther than it changes
    nothing.  [Add] of any other candidate whose ID the set does not hold
    removes exactly that last entry and inserts the candidate, unvisited,
    at its place in the order; the size stays. *)
Lemma Set_Add_on_full_set s x :
  Inv s -> 1 <= capacity s -> size s = capacity s ->
  exists kept last,
    entries (items s) = kept ++ [last]
    /\ Forall (fun e => not_closer e last) (entries (items s))
    /\ (F32.lt (distance last) (candidate_distance s x) = true ->
        Set_Add s x = Ok s)
    /\ (F32.lt (distance last) (candidate_distance s x) = false ->
        ~ In x (map index (entries (items s))) ->
        exists s',
          Set_Add s x = Ok s'
          /\ Set_Size s' = Set_Size s
          /\ Inv s'
          /\ inserted (mkIAD x (candidate_distance s x) false) kept
               (entries (items s'))).
Proof.
  intros HI Hpos Hfull.
  destruct (Set_Add_full_cases s x HI Hpos Hfull)
    as (kept & last & He & Hfar & Hnoop & Hevict).
  exists kept, last. split; [ exact He | ]. split; [ exact Hfar | ].
  split; [ exact Hnoop | ].
  intros Hlt Hfresh. apply Hevict; [ exact Hlt | ].
  intros Hin. apply Hfresh. rewrite He, map_app.
  apply in_or_app. left. exact Hin.
Qed.

Lemma full_line_reached :
  Set_AddRange (NewSet 4 line_source sqEuclid origin) [3; 1; 5; 2]
  = Ok full_line.
Proof. reflexivity. Qed.

Lemma Inv_full_line : Inv full_line.
Proof.
  refine (proj1 (Set_AddRange_Inv _ _ _ _ full_line_reached)).
  apply Inv_NewSet. unfold int_max. lia.
Defined.

Lemma Set_Add_on_full_set_witness :
  Set_Add full_line 7 = Ok full_line
  /\ exists s', Set_Add full_line 4 = Ok s' /\ Set_Size s' = 4.
Proof.
  assert (Hpos : 1 <= capacity full_line) by (simpl; lia).
  assert (Hfull : size full_line = capacity full_line) by reflexivity.
  assert (Hlast : forall kept last,
            entries (items full_line) = kept ++ [last] ->
            last = mkIAD 5 (F32.of_Z 25) false).
  { intros kept last He.
    apply (f_equal (@rev _)) in He. rewrite rev_app_distr in He.
    vm_compute in He. injection He as He _. symmetry. exact He. }
  split.
  - destruct (Set_Add_on_full_set full_line 7 Inv_full_line Hpos Hfull)
      as (kept & last & He & _ & Hfar & _).
    apply Hfar. rewrite (Hlast _ _ He). vm_compute. reflexivity.
  - destruct (Set_Add_on_full_set full_line 4 Inv_full_line Hpos Hfull)
      as (kept & last & He & _ & _ & Hnear).
    destruct Hnear as (s' & Hadd & Hsize & _).
    + rewrite (Hlast _ _ He). vm_compute. reflexivity.
    + vm_compute. intros [H | [H | [H | [H | []]]]]; discriminate H.
    + exists s'. split; [ exact Hadd | exact Hsize ].
Defined.

(** *** [Top] *)

Lemma nan_first_reached :
  Set_AddRange (NewSet 3 nan_source sqEuclid origin) [9; 2] = Ok nan_first.
Proof. reflexivity. Qed.

(** C5, as stated, fails twice.  [Top] has one result, an ID: on
    [live_zero] it finds the entry 0 and returns 0; on the exhausted
    [spent_zero] it returns 0 as well, and nothing tells the two apart.
    And the entry it returns need not have the smallest distance: on
    [nan_first], reached by two calls of [Add], it returns the ID 9, whose
    distance is a NaN and so not less than or equal to the distance 4 of
    the unvisited entry 2. *)
Lemma exhausted_Top_answers_like_found :
  (Set_NotVisited live_zero = Ok true
   /\ Set_Top live_zero = Ok (0, spent_zero)
   /\ Set_NotVisited spent_zero = Ok false
   /\ Set_Top spent_zero = Ok (0, spent_zero))
  /\ (Set_AddRange (NewSet 3 nan_source sqEuclid origin) [9; 2] = Ok nan_first
      /\ entries (items nan_first)
         = [mkIAD 9 S754_nan false; mkIAD 2 (F32.of_Z 4) false]
      /\ rmap fst (Set_Top nan_first) = Ok 9
      /\ F32.le S754_nan (F32.of_Z 4) = false).
Proof.
  split; [ repeat split; reflexivity | ].
  split; [ exact nan_first_reached | repeat split; reflexivity ].
Qed.

(** Away from NaN, the first unvisited entry of a sorted traversal has the
    smallest distance among the unvisited ones. *)
Lemma first_unvisited_le e u :
  not_closer e u ->
  F32.is_nan (distance e) = false -> F32.is_nan (distance u) = false ->
  F32.le (distance e) (distance u) = true.
Proof.
  intros Hnc He Hu. apply F32Order.not_lt_le; assumption.
Qed.

(** C5, amended.  On a non-empty set with an unvisited entry, [Top]
    returns the first unvisited entry of the traversal and marks that
    entry and no other.  No unvisited entry is strictly closer than the
    one returned, and its distance is less than or equal to the distance
    of every unvisited entry, unless one of the two distances is a NaN.
    When every entry is visited, [Node.Top] answers [(0, false)] and
    changes nothing; [Set.Top] drops the flag and returns the ID 0. *)
Theorem Set_Top_nearest_unvisited s :
  Inv s -> items s <> nilNode ->
  (Set_NotVisited s = Ok true ->
   exists pre e post n',
     entries (items s) = pre ++ e :: post
     /\ Forall (fun u => visited u = true) pre
     /\ visited e = false
     /\ (forall u, In u (entries (items s)) -> visited u = false ->
         not_closer e u)
     /\ (forall u, In u (entries (items s)) -> visited u = false ->
         F32.is_nan (distance e) = false ->
         F32.is_nan (distance u) = false ->
         F32.le (distance e) (distance u) = true)
     /\ Node_Top (items s) = Ok (index e, true, n')
     /\ Set_Top s = Ok (index e, set_items s n')
     /\ entries n' = pre ++ mark_visited e :: post)
  /\ (Set_NotVisited s = Ok false ->
      Node_Top (items s) = Ok (0, false, items s)
      /\ Set_Top s = Ok (0, s)).
Proof.
  intros HI Hn. pose proof HI as [Ho _ _ _ _].
  unfold Set_NotVisited. rewrite (Node_NotVisited_spec _ Hn).
  rewrite existsb_find_unvisited.
  destruct (Node_Top_spec _ Hn) as (i & found & n' & HT & Ha & He & _ & _ & Hsame).
  unfold top_answer in Ha.
  destruct (find unvisited (entries (items s))) as [e | ] eqn:Hfind;
    injection Ha as <- <-.
  - split; [ intros _ | discriminate ].
    destruct (find_unvisited_split _ _ Hfind) as (pre & post & Hes & Hpre & Hv & Hm).
    exists pre, e, post, n'.
    split; [ exact Hes | ]. split; [ exact Hpre | ]. split; [ exact Hv | ].
    assert (Hnear : forall u, In u (entries (items s)) -> visited u = false ->
                           not_closer e u).
    { rewrite Hes. apply sorted_first_unvisited; [ | exact Hpre ].
      rewrite <- Hes. apply ordered_sorted. exact Ho. }
    split; [ exact Hnear | ].
    split.
    { intros u Hu Hvu. apply first_unvisited_le. exact (Hnear u Hu Hvu). }
    split; [ exact HT | ].
    split; [ unfold Set_Top; rewrite HT; reflexivity | ].
    rewrite He. exact Hm.
  - split; [ discriminate | intros _ ].
    rewrite (Hsame eq_refl) in HT. split; [ exact HT | ].
    unfold Set_Top. rewrite HT. cbn [bind]. rewrite set_items_same. reflexivity.
Qed.

Lemma Set_Top_nearest_unvisited_witness :
  rmap fst (Set_Top full_line) = Ok 1
  /\ Set_Top spent_zero = Ok (0, spent_zero).
Proof.
  assert (Hn : items full_line <> nilNode) by (simpl; discriminate).
  assert (Hu : Set_NotVisited full_line = Ok true) by reflexivity.
  destruct (proj1 (Set_Top_nearest_unvisited full_line Inv_full_line Hn) Hu)
    as (pre & e & post & n' & Hes & Hpre & Hv & _ & _ & _ & HS & _).
  assert (He : index e = 1).
  { destruct pre as [ | a pre].
    - vm_compute in Hes. injection Hes as <- _. reflexivity.
    - apply Forall_cons_iff in Hpre. destruct Hpre as [Ha _].
      vm_compute in Hes. injection Hes as <- _. discriminate Ha. }
  assert (HI0 : Inv spent_zero).
  { constructor; simpl; auto; try (unfold int_max; lia). discriminate. }
  assert (Hn0 : items spent_zero <> nilNode) by (simpl; discriminate).
  split.
  - rewrite HS, <- He. reflexivity.
  - exact (proj2 (proj2 (Set_Top_nearest_unvisited spent_zero HI0 Hn0) eq_refl)).
Defined.

(** *** The size bound *)

(** C6.  For a set created with a capacity [L], a list size and so not
    negative, after every sequence of calls that returns the size is at
    most [L], and the tree holds at most as many entries as the size says.
    For [L] at least 1 every sequence of [Add] and [AddRange] calls
    returns. *)
Theorem Size_within_capacity L vf dist c calls :
  0 <= L <= int_max ->
  (forall tops s,
     run (NewSet L vf dist c) calls = Ok (tops, s) ->
     Set_Size s <= L /\ Z.of_nat (Node_count (items s)) <= Set_Size s)
  /\ (1 <= L -> forallb is_add calls = true ->
      exists s, run (NewSet L vf dist c) calls = Ok ([], s)).
Proof.
  intros HL. pose proof (Inv_NewSet L vf dist c HL) as HI. split.
  - intros tops s Hrun. destruct (run_Inv _ _ _ _ HI Hrun) as ([_ Hc Hs _ _] & Hcap).
    cbn [NewSet capacity] in Hcap. unfold Set_Size.
    rewrite <- Node_count_entries. split; [ lia | exact Hc ].
  - intros Hpos Hadds. apply run_adds_total; [ exact HI | exact Hpos | exact Hadds ].
Qed.

Lemma Size_within_capacity_witness :
  exists s,
    run (NewSet 2 line_source sqEuclid origin)
      [CallAdd 4; CallAddRange [1; 6; 2]; CallAdd 3] = Ok ([], s)
    /\ Set_Size s <= 2.
Proof.
  assert (HL : 0 <= 2 <= int_max) by (unfold int_max; lia).
  destruct (Size_within_capacity 2 line_source sqEuclid origin
              [CallAdd 4; CallAddRange [1; 6; 2]; CallAdd 3] HL)
    as [Hbound Htotal].
  destruct (Htotal ltac:(lia) eq_refl) as (s & Hrun).
  exists s. split; [ exact Hrun | exact (proj1 (Hbound _ _ Hrun)) ].
Defined.

(** *** [Elements] *)

(** C7, as stated, fails on the empty set, where [Elements] dereferences
    the nil root instead of returning the empty list. *)
Lemma Elements_of_empty_set_panics :
  Set_Elements (NewSet 3 line_source sqEuclid origin) = Panic NilDereference
  /\ entries (items (NewSet 3 line_source sqEuclid origin)) = [].
Proof. split; reflexivity. Qed.

(** C7, amended.  On a set that holds at least one entry, [Elements]
    returns the IDs of all stored entries in traversal order.  That order
    is ascending by distance: no entry is strictly closer than one before
    it, and where no distance is a NaN each entry is at most as far as the
    ones after it.  The list is as long as the tree has nodes. *)
Theorem Set_Elements_ascending s :
  Inv s -> items s <> nilNode ->
  Set_Elements s = Ok (map index (entries (items s)))
  /\ StronglySorted not_closer (entries (items s))
  /\ (Forall (fun e => F32.is_nan (distance e) = false) (entries (items s)) ->
      StronglySorted (fun a b => F32.le (distance a) (distance b) = true)
        (entries (items s)))
  /\ length (map index (entries (items s))) = Node_count (items s).
Proof.
  intros [Ho Hc Hs Hcap _] Hn.
  pose proof (ordered_sorted _ Ho) as Hsorted.
  split; [ apply Set_Elements_spec; [ exact Hn | exact Hc | lia ] | ].
  split; [ exact Hsorted | ].
  split; [ apply sorted_le_without_nan; exact Hsorted | ].
  rewrite length_map. apply Node_count_entries.
Qed.

Lemma Set_Elements_ascending_witness :
  Set_Elements full_line = Ok [1; 2; 3; 5]
  /\ map distance (entries (items full_line))
     = [F32.of_Z 1; F32.of_Z 4; F32.of_Z 9; F32.of_Z 25].
Proof.
  assert (Hn : items full_line <> nilNode) by (simpl; discriminate).
  destruct (Set_Elements_ascending full_line Inv_full_line Hn) as (HE & _).
  split; [ rewrite HE | ]; reflexivity.
Defined.

(** * Further properties of the candidate set *)

(** ** More on the order of [float32] *)

Lemma F32_lt_le a b : F32.lt a b = true -> F32.le a b = true.
Proof.
  unfold F32.lt, F32.le, SFltb, SFleb.
  destruct (SFcompare a b) as [[ | | ] | ]; intros H;
    try discriminate; reflexivity.
Qed.

Lemma F32_lt_le_trans a b c :
  F32.lt a b = true -> F32.le b c = true -> F32.lt a c = true.
Proof.
  unfold F32.lt, F32.le, SFltb, SFleb.
  destruct a as [[]|[]| |[] ma ea], b as [[]|[]| |[] mb eb],
           c as [[]|[]| |[] mc ec];
    simpl; try discriminate; try reflexivity; intros H1 H2;
    change (PosDef.Pos.compare_cont Eq) with Pos.compare in *;
    destruct (Z.compare_spec ea eb), (Z.compare_spec eb ec),
             (Z.compare_spec ea ec);
    try discriminate; try reflexivity; try lia;
    destruct (Pos.compare_spec ma mb), (Pos.compare_spec mb mc),
             (Pos.compare_spec ma mc);
    try discriminate; try reflexivity; lia.
Qed.

Lemma F32_le_trans a b c :
  F32.le a b = true -> F32.le b c = true -> F32.le a c = true.
Proof.
  unfold F32.le, SFleb.
  destruct a as [[]|[]| |[] ma ea], b as [[]|[]| |[] mb eb],
           c as [[]|[]| |[] mc ec];
    simpl; try discriminate; try reflexivity; intros H1 H2;
    change (PosDef.Pos.compare_cont Eq) with Pos.compare in *;
    destruct (Z.compare_spec ea eb), (Z.compare_spec eb ec),
             (Z.compare_spec ea ec);
    try discriminate; try reflexivity; try lia;
    destruct (Pos.compare_spec ma mb), (Pos.compare_spec mb mc),
             (Pos.compare_spec ma mc);
    try discriminate; try reflexivity; lia.
Qed.

(** ** [Add], outcome by outcome *)

Lemma same_params_refl s : same_params s s.
Proof. repeat split. Qed.

Lemma same_params_trans s1 s2 s3 :
  same_params s1 s2 -> same_params s2 s3 -> same_params s1 s3.
Proof.
  intros (A1 & A2 & A3 & A4) (B1 & B2 & B3 & B4).
  repeat split; congruence.
Qed.

Lemma candidate_distance_params s s' x :
  same_params s s' -> candidate_distance s' x = candidate_distance s x.
Proof.
  intros (A1 & A2 & A3 & A4). unfold candidate_distance.
  rewrite A1, A2, A3. reflexivity.
Qed.

(** In an ordered tree whose entries for the ID of [data] carry the
    distance of [data], [Node.Add] decides on membership alone. *)
Lemma Node_Add_decided n data :
  n <> nilNode -> ordered n ->
  (forall e, In e (entries n) -> index e = index data ->
             distance e = distance data) ->
  exists n',
    Node_Add n data = Ok n' /\ n' <> nilNode /\ ordered n'
    /\ ((In (index data) (map index (entries n)) /\ n' = n)
        \/ (~ In (index data) (map index (entries n))
            /\ inserted data (entries n) (entries n'))).
Proof.
  intros Hn Ho Hsrc.
  destruct (Node_Add_spec n data Hn) as (n' & Hadd & Hn' & Hcase & Hord).
  exists n'. split; [ exact Hadd | ]. split; [ exact Hn' | ].
  split; [ exact (Hord Ho) | ].
  destruct (in_dec Z.eq_dec (index data) (map index (entries n))) as [Hin | Hnot].
  - left. split; [ exact Hin | ].
    apply in_map_iff in Hin. destruct Hin as (e & Hi & He).
    rewrite (Node_Add_duplicate n data e Ho He Hi (Hsrc e He Hi)) in Hadd.
    congruence.
  - right. split; [ exact Hnot | ].
    destruct Hcase as [[_ Hin] | Hins]; [ contradiction | exact Hins ].
Qed.

(** What [Add] comes down to on a set that satisfies [Inv]. *)
Lemma Set_Add_reduce s x :
  Inv s ->
  (size s < capacity s
   /\ Set_Add s x = Set_Add_place s x (candidate_distance s x))
  \/ (size s = capacity s /\ items s = nilNode
      /\ Set_Add s x = Panic NilDereference)
  \/ (size s = capacity s
      /\ exists last rest,
           entries (items s) = entries rest ++ [last]
           /\ (ordered (items s) -> ordered rest)
           /\ ((F32.lt (distance last) (candidate_distance s x) = true
                /\ Set_Add s x = Ok s)
               \/ (F32.lt (distance last) (candidate_distance s x) = false
                   /\ Set_Add s x =
                      Set_Add_place (set_size (set_items s rest) (size s - 1))
                        x (candidate_distance s x)))).
Proof.
  intros [Ho Hc Hs Hcap Hseed].
  assert (Hlen := Nat2Z.is_nonneg (length (entries (items s)))).
  unfold Set_Add, candidate_distance.
  destruct (vectorForID s x) as [vec err]. cbn [fst].
  set (dist := distanceFn s vec (center s)).
  destruct (Z.eqb_spec (size s) (capacity s)) as [Hfull | Hroom];
    [ right | left; split; [ lia | reflexivity ] ].
  assert (Hcase : items s = nilNode \/ items s <> nilNode)
    by (destruct (items s); [ left | right ]; congruence).
  destruct Hcase as [Hnil | Hi].
  { left. split; [ exact Hfull | ]. split; [ exact Hnil | ].
    unfold Set_RemoveLastIfBigger. rewrite Hnil. reflexivity. }
  right. split; [ exact Hfull | ].
  destruct (Set_RemoveLastIfBigger_spec s dist Hi)
    as (last & rest & He & Hor & ->).
  exists last, rest. split; [ exact He | ]. split; [ exact Hor | ].
  rewrite He, length_app in Hc. simpl in Hc.
  destruct (F32.lt (distance last) dist); cbn [bind negb];
    [ left; split; reflexivity | right; split; [ reflexivity | ] ].
  cbn [set_items set_size size]. rewrite int_decr_small by lia. reflexivity.
Qed.

Lemma Set_Add_place_decided s x dist :
  0 <= size s < int_max -> ordered (items s) ->
  (forall e, In e (entries (items s)) -> index e = x -> distance e = dist) ->
  exists n',
    Set_Add_place s x dist =
      Ok (mkSet n' (vectorForID s) (distanceFn s) (center s) (capacity s)
            (size s + 1))
    /\ n' <> nilNode /\ ordered n'
    /\ ((In x (map index (entries (items s))) /\ n' = items s)
        \/ (~ In x (map index (entries (items s)))
            /\ inserted (mkIAD x dist false) (entries (items s)) (entries n'))).
Proof.
  intros Hsz Ho Hsrc. unfold Set_Add_place. cbn [set_size items size].
  rewrite (int_incr_small _ Hsz).
  destruct (items s) as [ | d l r] eqn:Hi.
  - exists (leaf (mkIAD x dist false)).
    split; [ reflexivity | ]. split; [ discriminate | ].
    split; [ simpl; auto | ].
    right. split; [ intros [] | ]. exists [], []. split; reflexivity.
  - destruct (Node_Add_decided (mkNode d l r) (mkIAD x dist false))
      as (n' & Hadd & Hn' & Hon & Hcase); [ discriminate | exact Ho | exact Hsrc | ].
    exists n'. rewrite Hadd. split; [ reflexivity | ].
    split; [ exact Hn' | ]. split; [ exact Hon | exact Hcase ].
Qed.

Lemma inserted_In x es es' :
  inserted x es es' -> forall e, In e es' <-> e = x \/ In e es.
Proof.
  intros (pre & post & -> & ->) e. rewrite !in_app_iff. simpl.
  split; intros H; intuition auto.
Qed.

Lemma inserted_ids x es es' :
  inserted x es es' ->
  Permutation (map index es') (index x :: map index es).
Proof.
  intros (pre & post & -> & ->). rewrite !map_app. simpl.
  symmetry. apply Permutation_middle.
Qed.

Lemma NoDup_inserted x es es' :
  inserted x es es' -> ~ In (index x) (map index es) ->
  NoDup (map index es) -> NoDup (map index es').
Proof.
  intros Hins Hfresh Hnd.
  apply (Permutation_NoDup (l := index x :: map index es)).
  - symmetry. apply inserted_ids. exact Hins.
  - constructor; assumption.
Qed.

Lemma Set_Add_outcome s x s' :
  Inv s -> sourced s -> Set_Add s x = Ok s' ->
  same_params s s'
  /\ ((size s = capacity s /\ s' = s
       /\ exists kept last,
            entries (items s) = kept ++ [last]
            /\ F32.lt (distance last) (candidate_distance s x) = true)
      \/ exists base,
           ((size s < capacity s /\ base = entries (items s)
             /\ size s' = size s + 1)
            \/ (size s = capacity s /\ size s' = size s
                /\ exists last,
                     entries (items s) = base ++ [last]
                     /\ F32.lt (distance last) (candidate_distance s x) = false))
           /\ ((In x (map index base) /\ entries (items s') = base)
               \/ (~ In x (map index base)
                   /\ inserted (candidate s x) base (entries (items s'))))).
Proof.
  intros HI Hsrc Hadd. pose proof HI as [Ho Hc Hs Hcap Hseed].
  assert (Hlen := Nat2Z.is_nonneg (length (entries (items s)))).
  unfold sourced in Hsrc. rewrite Forall_forall in Hsrc.
  destruct (Set_Add_reduce s x HI)
    as [(Hroom & Heq) | [(_ & _ & Heq) | (Hfull & last & rest & He & Hor & Hcase)]].
  - rewrite Heq in Hadd.
    destruct (Set_Add_place_decided s x (candidate_distance s x))
      as (n' & Hp & _ & _ & Hdec); [ lia | exact Ho | | ].
    { intros e He Hi. rewrite (Hsrc e He), Hi. reflexivity. }
    rewrite Hp in Hadd. injection Hadd as <-.
    split; [ repeat split | right ].
    exists (entries (items s)). split; [ left; repeat split; lia | ].
    cbn [items]. destruct Hdec as [(Hin & ->) | (Hnot & Hins)];
      [ left | right ]; split; auto.
  - rewrite Heq in Hadd. discriminate.
  - destruct Hcase as [(Hlt & Heq) | (Hlt & Heq)]; rewrite Heq in Hadd.
    + injection Hadd as <-. split; [ apply same_params_refl | left ].
      split; [ exact Hfull | ]. split; [ reflexivity | ].
      exists (entries rest), last. split; assumption.
    + rewrite He, length_app in Hc. simpl in Hc.
      destruct (Set_Add_place_decided
                  (set_size (set_items s rest) (size s - 1)) x
                  (candidate_distance s x))
        as (n' & Hp & _ & _ & Hdec).
      * simpl. lia.
      * simpl. exact (Hor Ho).
      * simpl. intros e Hin Hi. rewrite <- Hi. apply Hsrc.
        rewrite He. apply in_or_app. left. exact Hin.
      * rewrite Hp in Hadd. injection Hadd as <-. cbn in Hdec |- *.
        split; [ repeat split | right ].
        exists (entries rest). split.
        -- right. split; [ exact Hfull | ]. split; [ lia | ].
           exists last. split; assumption.
        -- destruct Hdec as [(Hin & ->) | (Hnot & Hins)];
             [ left | right ]; split; auto.
Qed.

Lemma NoDup_ids_kept (base : list IndexAndDistance) last :
  NoDup (map index (base ++ [last])) -> NoDup (map index base).
Proof.
  rewrite map_app. intros H. apply NoDup_app_remove_r in H. exact H.
Qed.

Lemma Set_Add_Sound s x s' :
  Sound s -> Set_Add s x = Ok s' -> Sound s' /\ same_params s s'.
Proof.
  intros [HI Hsrc Hnd] Hadd.
  destruct (Set_Add_outcome s x s' HI Hsrc Hadd) as (Hpar & Hcase).
  split; [ | exact Hpar ].
  destruct Hcase as [(_ & -> & _) | (base & Hbase & Hplaced)];
    [ constructor; assumption | ].
  assert (Hsub : forall e, In e base -> In e (entries (items s))).
  { destruct Hbase as [(_ & -> & _) | (_ & _ & last & -> & _)]; intros e He;
      [ exact He | apply in_or_app; left; exact He ]. }
  assert (Hndb : NoDup (map index base)).
  { unfold ids in Hnd.
    destruct Hbase as [(_ & -> & _) | (_ & _ & last & He & _)];
      [ exact Hnd | rewrite He in Hnd; exact (NoDup_ids_kept _ _ Hnd) ]. }
  unfold sourced in Hsrc. rewrite Forall_forall in Hsrc.
  constructor.
  - exact (proj1 (Set_Add_Inv _ _ _ HI Hadd)).
  - unfold sourced. apply Forall_forall. intros e He.
    rewrite (candidate_distance_params _ _ _ Hpar).
    destruct Hplaced as [(_ & Heq) | (_ & Hins)].
    + rewrite Heq in He. exact (Hsrc e (Hsub e He)).
    + apply (inserted_In _ _ _ Hins) in He. destruct He as [-> | He];
        [ reflexivity | exact (Hsrc e (Hsub e He)) ].
  - unfold ids. destruct Hplaced as [(_ & ->) | (Hfresh & Hins)];
      [ exact Hndb | ].
    exact (NoDup_inserted _ _ _ Hins Hfresh Hndb).
Qed.

Lemma mark_first_ids es : map index (mark_first es) = map index es.
Proof.
  induction es as [ | e es IH]; [ reflexivity | simpl ].
  destruct (visited e); simpl; [ rewrite IH | ]; reflexivity.
Qed.

Lemma mark_first_distances es : map distance (mark_first es) = map distance es.
Proof.
  induction es as [ | e es IH]; [ reflexivity | simpl ].
  destruct (visited e); simpl; [ rewrite IH | ]; reflexivity.
Qed.

Lemma mark_first_keeps (P : IndexAndDistance -> Prop) es :
  (forall e, P e -> P (mark_visited e)) ->
  Forall P es -> Forall P (mark_first es).
Proof.
  intros Hmark. induction 1 as [ | e es He Hes IH]; simpl; [ constructor | ].
  destruct (visited e); constructor; auto.
Qed.

Lemma Set_Top_entries s x s' :
  Set_Top s = Ok (x, s') ->
  entries (items s') = mark_first (entries (items s))
  /\ same_params s s' /\ size s' = size s
  /\ (x, existsb unvisited (entries (items s))) = top_answer (entries (items s)).
Proof.
  unfold Set_Top.
  destruct (items s) as [ | d l r] eqn:Hi; [ discriminate | ].
  destruct (Node_Top_spec (mkNode d l r))
    as (i & found & n' & -> & Ha & He & _ & _ & _); [ discriminate | ].
  cbn [bind]. intros [= <- <-]. unfold set_items. cbn [items size].
  split; [ exact He | ]. split; [ repeat split | ]. split; [ reflexivity | ].
  rewrite existsb_find_unvisited. unfold top_answer in *.
  destruct (find unvisited (entries (mkNode d l r))); congruence.
Qed.

Lemma Set_Top_Sound s x s' :
  Sound s -> Set_Top s = Ok (x, s') -> Sound s' /\ same_params s s'.
Proof.
  intros [HI Hsrc Hnd] Htop.
  destruct (Set_Top_entries _ _ _ Htop) as (He & Hpar & _ & _).
  split; [ | exact Hpar ]. constructor.
  - exact (proj1 (Set_Top_Inv _ _ _ HI Htop)).
  - unfold sourced in *. rewrite He.
    apply mark_first_keeps.
    + intros e H. exact H.
    + eapply Forall_impl; [ | exact Hsrc ]. intros e H. cbn in H.
      rewrite (candidate_distance_params _ _ _ Hpar). exact H.
  - unfold ids in *. rewrite He, mark_first_ids. exact Hnd.
Qed.

Lemma Set_AddRange_Sound xs : forall s s',
  Sound s -> Set_AddRange s xs = Ok s' -> Sound s' /\ same_params s s'.
Proof.
  induction xs as [ | x xs IH]; intros s s' HS; cbn [Set_AddRange].
  - intros [= <-]. split; [ exact HS | apply same_params_refl ].
  - destruct (Set_Add s x) as [s1 | p] eqn:Hadd; cbn [bind]; [ | discriminate ].
    destruct (Set_Add_Sound _ _ _ HS Hadd) as (HS1 & Hp1).
    intros H. destruct (IH _ _ HS1 H) as (HS' & Hp').
    split; [ exact HS' | exact (same_params_trans _ _ _ Hp1 Hp') ].
Qed.

Lemma run_Sound calls : forall s tops s',
  Sound s -> run s calls = Ok (tops, s') -> Sound s' /\ same_params s s'.
Proof.
  induction calls as [ | c calls IH]; intros s tops s' HS; cbn [run].
  - intros [= <- <-]. split; [ exact HS | apply same_params_refl ].
  - destruct c as [x | xs | ].
    + destruct (Set_Add s x) as [s1 | p] eqn:H1; cbn [bind]; [ | discriminate ].
      destruct (Set_Add_Sound _ _ _ HS H1) as (HS1 & Hp1).
      intros H. destruct (IH _ _ _ HS1 H) as (HS' & Hp').
      split; [ exact HS' | exact (same_params_trans _ _ _ Hp1 Hp') ].
    + destruct (Set_AddRange s xs) as [s1 | p] eqn:H1; cbn [bind];
        [ | discriminate ].
      destruct (Set_AddRange_Sound _ _ _ HS H1) as (HS1 & Hp1).
      intros H. destruct (IH _ _ _ HS1 H) as (HS' & Hp').
      split; [ exact HS' | exact (same_params_trans _ _ _ Hp1 Hp') ].
    + destruct (Set_Top s) as [[x s1] | p] eqn:H1; cbn [bind]; [ | discriminate ].
      destruct (Set_Top_Sound _ _ _ HS H1) as (HS1 & Hp1).
      destruct (run s1 calls) as [[tops1 s2] | p] eqn:H2; cbn [bind];
        [ | discriminate ].
      intros [= <- <-]. destruct (IH _ _ _ HS1 H2) as (HS' & Hp').
      split; [ exact HS' | exact (same_params_trans _ _ _ Hp1 Hp') ].
Qed.

Lemma Sound_NewSet L vf dist c :
  0 <= L <= int_max -> Sound (NewSet L vf dist c).
Proof.
  intros HL. constructor.
  - apply Inv_NewSet. exact HL.
  - constructor.
  - constructor.
Qed.

Lemma Set_Add_outcome_Inv s x s' :
  Inv s -> Set_Add s x = Ok s' ->
  same_params s s'
  /\ ((size s = capacity s /\ s' = s
       /\ exists kept last,
            entries (items s) = kept ++ [last]
            /\ F32.lt (distance last) (candidate_distance s x) = true)
      \/ exists base,
           ((size s < capacity s /\ base = entries (items s)
             /\ size s' = size s + 1)
            \/ (size s = capacity s /\ size s' = size s
                /\ exists last,
                     entries (items s) = base ++ [last]
                     /\ F32.lt (distance last) (candidate_distance s x) = false))
           /\ ((In x (map index base) /\ entries (items s') = base)
               \/ inserted (candidate s x) base (entries (items s')))).
Proof.
  intros HI Hadd. pose proof HI as [Ho Hc Hs Hcap Hseed].
  assert (Hlen := Nat2Z.is_nonneg (length (entries (items s)))).
  destruct (Set_Add_reduce s x HI)
    as [(Hroom & Heq) | [(_ & _ & Heq) | (Hfull & last & rest & He & Hor & Hcase)]].
  - rewrite Heq in Hadd.
    destruct (Set_Add_place_spec s x (candidate_distance s x))
      as (n' & Hp & _ & Hdec & _); [ lia | ].
    rewrite Hp in Hadd. injection Hadd as <-.
    split; [ repeat split | right ].
    exists (entries (items s)). split; [ left; repeat split; lia | ].
    cbn [items]. destruct Hdec as [(-> & Hin) | Hins];
      [ left; split; auto | right; exact Hins ].
  - rewrite Heq in Hadd. discriminate.
  - destruct Hcase as [(Hlt & Heq) | (Hlt & Heq)]; rewrite Heq in Hadd.
    + injection Hadd as <-. split; [ apply same_params_refl | left ].
      split; [ exact Hfull | ]. split; [ reflexivity | ].
      exists (entries rest), last. split; assumption.
    + rewrite He, length_app in Hc. simpl in Hc.
      destruct (Set_Add_place_spec
                  (set_size (set_items s rest) (size s - 1)) x
                  (candidate_distance s x))
        as (n' & Hp & _ & Hdec & _); [ simpl; lia | ].
      rewrite Hp in Hadd. injection Hadd as <-. cbn in Hdec |- *.
      split; [ repeat split | right ].
      exists (entries rest). split.
      * right. split; [ exact Hfull | ]. split; [ lia | ].
        exists last. split; assumption.
      * destruct Hdec as [(-> & Hin) | Hins];
          [ left; split; auto | right; exact Hins ].
Qed.

Lemma Sound_full_line : Sound full_line.
Proof.
  refine (proj1 (Set_AddRange_Sound _ _ _ _ full_line_reached)).
  apply Sound_NewSet. unfold int_max. lia.
Defined.

Lemma pair_line_reached :
  Set_AddRange (NewSet 4 line_source sqEuclid origin) [3; 1] = Ok pair_line.
Proof. reflexivity. Qed.

Lemma Sound_pair_line : Sound pair_line.
Proof.
  refine (proj1 (Set_AddRange_Sound _ _ _ _ pair_line_reached)).
  apply Sound_NewSet. unfold int_max. lia.
Defined.

(** ** What holds of every reachable set *)

Lemma Set_AddRange_params xs : forall s s',
  Inv s -> Set_AddRange s xs = Ok s' -> same_params s s'.
Proof.
  induction xs as [ | x xs IH]; intros s s' HI; cbn [Set_AddRange].
  - intros [= <-]. apply same_params_refl.
  - destruct (Set_Add s x) as [s1 | p] eqn:Hadd; cbn [bind]; [ | discriminate ].
    destruct (Set_Add_Inv _ _ _ HI Hadd) as (HI1 & _).
    destruct (Set_Add_outcome_Inv _ _ _ HI Hadd) as (Hp1 & _).
    intros H. exact (same_params_trans _ _ _ Hp1 (IH _ _ HI1 H)).
Qed.

(** No call assigns the collaborators, the center or the capacity. *)
Lemma run_params calls : forall s tops s',
  Inv s -> run s calls = Ok (tops, s') -> same_params s s'.
Proof.
  induction calls as [ | c calls IH]; intros s tops s' HI; cbn [run].
  - intros [= <- <-]. apply same_params_refl.
  - destruct c as [x | xs | ].
    + destruct (Set_Add s x) as [s1 | p] eqn:H1; cbn [bind]; [ | discriminate ].
      destruct (Set_Add_Inv _ _ _ HI H1) as (HI1 & _).
      destruct (Set_Add_outcome_Inv _ _ _ HI H1) as (Hp1 & _).
      intros H. exact (same_params_trans _ _ _ Hp1 (IH _ _ _ HI1 H)).
    + destruct (Set_AddRange s xs) as [s1 | p] eqn:H1; cbn [bind];
        [ | discriminate ].
      destruct (Set_AddRange_Inv _ _ _ HI H1) as (HI1 & _).
      pose proof (Set_AddRange_params _ _ _ HI H1) as Hp1.
      intros H. exact (same_params_trans _ _ _ Hp1 (IH _ _ _ HI1 H)).
    + destruct (Set_Top s) as [[x s1] | p] eqn:H1; cbn [bind]; [ | discriminate ].
      destruct (Set_Top_Inv _ _ _ HI H1) as (HI1 & _).
      destruct (Set_Top_entries _ _ _ H1) as (_ & Hp1 & _).
      destruct (run s1 calls) as [[tops1 s2] | p] eqn:H2; cbn [bind];
        [ | discriminate ].
      intros [= <- <-]. exact (same_params_trans _ _ _ Hp1 (IH _ _ _ HI1 H2)).
Qed.

Lemma Inv_set_vectorForID s v : Inv s -> Inv (set_vectorForID s v).
Proof. intros [Ho Hc Hs Hcap Hseed]. constructor; assumption. Qed.

(** The invariant does not depend on what the source answers. *)
Lemma run_io_Inv calls : forall s tops s',
  Inv s -> run_io s calls = Ok (tops, s') ->
  Inv s' /\ distanceFn s' = distanceFn s /\ center s' = center s
  /\ capacity s' = capacity s.
Proof.
  induction calls as [ | [v c] calls IH]; intros s tops s' HI; cbn [run_io].
  - intros [= <- <-]. auto.
  - destruct (run (set_vectorForID s v) [c]) as [[tops1 s1] | p] eqn:H1;
      cbn [bind]; [ | discriminate ].
    apply (Inv_set_vectorForID s v) in HI.
    destruct (run_Inv _ _ _ _ HI H1) as (HI1 & _).
    destruct (run_params _ _ _ _ HI H1) as (_ & P2 & P3 & P4).
    cbn in P2, P3, P4.
    destruct (run_io s1 calls) as [[tops2 s2] | p] eqn:H2; cbn [bind];
      [ | discriminate ].
    intros [= <- <-]. destruct (IH _ _ _ HI1 H2) as (HI2 & Q2 & Q3 & Q4).
    split; [ exact HI2 | ]. repeat split; congruence.
Qed.

(** With a source that answers each ID with the same vector every time,
    a stored ID stays findable. *)
Lemma run_io_steady vf calls : forall s tops s',
  steady vf calls ->
  Inv s -> NoDup (ids s) -> sourced_by vf s ->
  run_io s calls = Ok (tops, s') ->
  NoDup (ids s') /\ sourced_by vf s'.
Proof.
  induction calls as [ | [v c] calls IH]; intros s tops s' Hst HI Hnd Hsrc;
    cbn [run_io].
  - intros [= <- <-]. auto.
  - apply Forall_cons_iff in Hst. destruct Hst as [Hv Hst]. cbn [fst] in Hv.
    destruct (run (set_vectorForID s v) [c]) as [[tops1 s1] | p] eqn:H1;
      cbn [bind]; [ | discriminate ].
    assert (HS : Sound (set_vectorForID s v)).
    { constructor; [ apply Inv_set_vectorForID; exact HI | | exact Hnd ].
      unfold sourced, candidate_distance. cbn.
      eapply Forall_impl; [ | exact Hsrc ]. intros e He. cbn in He.
      rewrite Hv. exact He. }
    destruct (run_Sound _ _ _ _ HS H1) as ([HI1 Hsrc1 Hnd1] & (P1 & P2 & P3 & _)).
    cbn in P1, P2, P3.
    destruct (run_io s1 calls) as [[tops2 s2] | p] eqn:H2; cbn [bind];
      [ | discriminate ].
    intros [= <- <-]. apply (IH s1 tops2 s2 Hst HI1 Hnd1); [ | exact H2 ].
    unfold sourced, candidate_distance in Hsrc1. unfold sourced_by.
    eapply Forall_impl; [ | exact Hsrc1 ]. intros e He. cbn in He.
    rewrite P1, Hv in He. exact He.
Qed.

Lemma steady_run_reached :
  run_io (NewSet 4 line_source sqEuclid origin) steady_run = Ok ([], pair_line).
Proof. reflexivity. Qed.

(** The condition of the second part of the next result is needed.  In
    [flaky_run] the fetch of the ID 5 fails once, which [Add] does not
    notice, and succeeds later: the two calls compute two distances, the
    search for the ID takes another path, and the ID is stored twice. *)
Lemma flaky_source_stores_an_id_twice :
  rmap (fun r => ids (snd r))
    (run_io (NewSet 3 line_source sqEuclid origin) flaky_run)
  = Ok [5; 3; 5].
Proof. reflexivity. Qed.

(** X1.  After any sequence of [Add], [AddRange] and [Top] calls on a set
    made by [NewSet] with a capacity that is not negative, whatever the
    vector source answers from call to call, the tree is a search tree by
    distance, its traversal is ascending, it holds at most as many entries
    as the size says, which is at most the capacity, and the distance
    function, the center and the capacity are the ones given to [NewSet].
    If the source answers each ID with the same vector at every call, then
    also no ID is stored twice and every stored distance is the distance
    of that vector to the center. *)
Theorem reachable_set_is_sound L vf dist c calls tops s :
  0 <= L <= int_max ->
  run_io (NewSet L vf dist c) calls = Ok (tops, s) ->
  (ordered (items s)
   /\ StronglySorted not_closer (entries (items s))
   /\ Z.of_nat (Node_count (items s)) <= Set_Size s <= L
   /\ distanceFn s = dist /\ center s = c /\ capacity s = L)
  /\ (steady vf calls ->
      NoDup (ids s)
      /\ Forall (fun e => distance e = dist (fst (vf (index e))) c)
           (entries (items s))).
Proof.
  intros HL Hrun.
  pose proof (Inv_NewSet L vf dist c HL) as HI.
  destruct (run_io_Inv _ _ _ _ HI Hrun) as ([Ho Hc Hs _ _] & P2 & P3 & P4).
  cbn in P2, P3, P4. split.
  - split; [ exact Ho | ]. split; [ exact (ordered_sorted _ Ho) | ].
    split; [ | auto ].
    unfold Set_Size. rewrite <- Node_count_entries. lia.
  - intros Hst.
    assert (Hnd0 : NoDup (ids (NewSet L vf dist c))) by constructor.
    assert (Hsrc0 : sourced_by vf (NewSet L vf dist c)) by constructor.
    destruct (run_io_steady vf calls _ tops s Hst HI Hnd0 Hsrc0 Hrun)
      as (Hnd & Hsrc).
    split; [ exact Hnd | ].
    unfold sourced_by in Hsrc. rewrite P2, P3 in Hsrc. exact Hsrc.
Qed.

Lemma reachable_set_is_sound_witness :
  run_io (NewSet 4 line_source sqEuclid origin) steady_run = Ok ([], pair_line)
  /\ ordered (items pair_line) /\ NoDup (ids pair_line)
  /\ capacity pair_line = 4.
Proof.
  assert (HL : 0 <= 4 <= int_max) by (unfold int_max; lia).
  assert (Hst : steady line_source steady_run)
    by (repeat constructor).
  destruct (reachable_set_is_sound 4 line_source sqEuclid origin steady_run
              [] pair_line HL steady_run_reached)
    as ((Ho & _ & _ & _ & _ & Hcap) & Hsteady).
  destruct (Hsteady Hst) as (Hnd & _).
  split; [ exact steady_run_reached | ].
  split; [ exact Ho | ]. split; [ exact Hnd | exact Hcap ].
Defined.

(** ** [Add] with room *)

(** X2.  On a set that is not full, where no ID is stored twice and every
    stored distance is the one the collaborators give the entry's ID now,
    at this call, [Add] of an ID that is stored leaves the tree as it is
    and raises the size by one.  Such is every set reached while the
    source answered each ID with the same vector; where the answer for
    the ID has changed the search can miss the stored entry, as in
    [flaky_run]. *)
Theorem Add_of_stored_id_counts s x :
  Sound s -> size s < capacity s -> In x (ids s) ->
  Set_Add s x = Ok (set_size s (size s + 1)).
Proof.
  intros [HI Hsrc _] Hroom Hin.
  apply in_map_iff in Hin. destruct Hin as (e & Hi & He).
  unfold sourced in Hsrc. rewrite Forall_forall in Hsrc.
  apply (Set_Add_duplicate_counts s x e HI Hroom He Hi).
  rewrite (Hsrc e He), Hi. reflexivity.
Qed.

Lemma Add_of_stored_id_counts_witness :
  Set_Add pair_line 1 = Ok (set_size pair_line 3).
Proof.
  apply (Add_of_stored_id_counts pair_line 1 Sound_pair_line).
  - simpl. lia.
  - simpl. auto.
Defined.

(** X3.  On a set that is not full, [Add] of an ID that is not stored
    returns, raises the size by one and inserts the new entry, unvisited,
    leaving the others in place: afterwards [NotVisited] is true and
    [Elements] lists the ID among one more ID than before. *)
Theorem Add_of_fresh_id_with_room s x :
  Inv s -> size s < capacity s -> ~ In x (ids s) ->
  exists s',
    Set_Add s x = Ok s'
    /\ Set_Size s' = Set_Size s + 1
    /\ inserted (candidate s x) (entries (items s)) (entries (items s'))
    /\ Set_NotVisited s' = Ok true
    /\ Set_Elements s' = Ok (ids s')
    /\ In x (ids s')
    /\ length (ids s') = S (length (ids s)).
Proof.
  intros HI Hroom Hfresh. pose proof HI as [Ho Hc Hs Hcap Hseed].
  assert (Hlen := Nat2Z.is_nonneg (length (entries (items s)))).
  destruct (Set_Add_reduce s x HI)
    as [(_ & Heq) | [(Hfull & _) | (Hfull & _)]]; [ | lia | lia ].
  destruct (Set_Add_place_spec s x (candidate_distance s x))
    as (n' & Hp & Hn' & Hdec & _); [ lia | ].
  rewrite <- Heq in Hp.
  destruct Hdec as [(_ & Hin) | Hins]; [ contradiction | ].
  eexists. split; [ exact Hp | ].
  destruct (Set_Add_Inv _ _ _ HI Hp) as ([Ho' Hc' Hs' Hcap' _] & _ & _).
  cbn in Ho', Hc', Hs', Hcap'.
  split; [ reflexivity | ]. split; [ exact Hins | ].
  unfold Set_NotVisited, ids. cbn [items].
  split.
  { rewrite (Node_NotVisited_spec _ Hn'). f_equal.
    apply existsb_exists. exists (candidate s x).
    split; [ apply (inserted_In _ _ _ Hins); left; reflexivity | reflexivity ]. }
  split.
  { apply Set_Elements_spec; cbn; [ exact Hn' | exact Hc' | lia ]. }
  split.
  { apply in_map_iff. exists (candidate s x).
    split; [ reflexivity | apply (inserted_In _ _ _ Hins); left; reflexivity ]. }
  rewrite !length_map. apply (inserted_length _ _ _ Hins).
Qed.

Lemma Add_of_fresh_id_with_room_witness :
  exists s', Set_Add pair_line 2 = Ok s' /\ ids s' = [1; 2; 3].
Proof.
  destruct (Add_of_fresh_id_with_room pair_line 2 (sound_inv _ Sound_pair_line))
    as (s' & Hadd & _).
  - simpl. lia.
  - simpl. intros [H | [H | []]]; discriminate H.
  - exists s'. split; [ exact Hadd | ].
    assert (H : rmap ids (Set_Add pair_line 2) = Ok [1; 2; 3]) by reflexivity.
    rewrite Hadd in H. injection H as H. exact H.
Defined.

(** X4.  [Add] on a set with a nil root whose size equals its capacity
    panics, [Last] being called on the nil root; every [Add] and every
    [AddRange] of at least one ID on a fresh set of capacity 0 does. *)
Theorem Add_panics_on_empty_full_set s x :
  items s = nilNode -> size s = capacity s ->
  Set_Add s x = Panic NilDereference
  /\ forall xs, Set_AddRange s (x :: xs) = Panic NilDereference.
Proof.
  intros Hnil Hfull.
  assert (H : Set_Add s x = Panic NilDereference).
  { unfold Set_Add. destruct (vectorForID s x) as [vec err].
    rewrite Hfull, Z.eqb_refl. unfold Set_RemoveLastIfBigger.
    rewrite Hnil. reflexivity. }
  split; [ exact H | ]. intros xs. cbn [Set_AddRange]. rewrite H. reflexivity.
Qed.

Lemma Add_panics_on_empty_full_set_witness :
  Set_Add (NewSet 0 line_source sqEuclid origin) 7 = Panic NilDereference.
Proof.
  exact (proj1 (Add_panics_on_empty_full_set
                  (NewSet 0 line_source sqEuclid origin) 7 eq_refl eq_refl)).
Defined.

(** ** [Top] and [NotVisited] *)

Lemma filter_unvisited_found es e :
  find unvisited es = Some e ->
  filter unvisited es = e :: filter unvisited (mark_first es).
Proof.
  induction es as [ | [i d v] es IH]; [ discriminate | ].
  destruct v; cbn.
  - intros H. exact (IH H).
  - intros [= <-]. reflexivity.
Qed.

Lemma filter_unvisited_none es :
  find unvisited es = None <-> filter unvisited es = [].
Proof.
  induction es as [ | a es IH]; [ split; reflexivity | ].
  cbn [find filter]. destruct (unvisited a); [ split; discriminate | exact IH ].
Qed.






(** X6.  A [Top] that returns changes nothing but one flag: [Elements],
    the size, the stored distances and the collaborators are the same
    after it, and the number of unvisited entries drops by one, or stays
    at zero. *)
Theorem Top_changes_one_flag s x s' :
  Inv s -> Set_Top s = Ok (x, s') ->
  Set_Elements s' = Set_Elements s
  /\ Set_Size s' = Set_Size s
  /\ map distance (entries (items s')) = map distance (entries (items s))
  /\ same_params s s'
  /\ length (filter unvisited (entries (items s')))
     = pred (length (filter unvisited (entries (items s)))).
Proof.
  intros HI HT.
  destruct (Set_Top_entries _ _ _ HT) as (He & Hpar & Hsz & _).
  destruct (Set_Top_Inv _ _ _ HI HT) as (HI' & _).
  assert (Hn : items s <> nilNode).
  { intros Hnil. unfold Set_Top in HT. rewrite Hnil in HT. discriminate HT. }
  assert (Hn' : items s' <> nilNode).
  { intros Hnil. apply (f_equal (@length _)) in He.
    rewrite Hnil, mark_first_length in He. simpl in He.
    symmetry in He. apply length_zero_iff_nil in He.
    apply entries_nil in He. contradiction. }
  split.
  { destruct HI as [_ Hc Hs Hcap _], HI' as [_ Hc' Hs' Hcap' _].
    rewrite (Set_Elements_spec s' Hn' Hc') by lia.
    rewrite (Set_Elements_spec s Hn Hc) by lia.
    rewrite He, mark_first_ids. reflexivity. }
  split; [ exact Hsz | ].
  split; [ rewrite He; apply mark_first_distances | ].
  split; [ exact Hpar | ].
  rewrite He.
  destruct (find unvisited (entries (items s))) as [e | ] eqn:Hfind.
  - rewrite (filter_unvisited_found _ _ Hfind). reflexivity.
  - rewrite (mark_first_none _ Hfind).
    apply filter_unvisited_none in Hfind. rewrite Hfind. reflexivity.
Qed.

Lemma Top_changes_one_flag_witness :
  exists s',
    Set_Top full_line = Ok (1, s')
    /\ Set_Elements s' = Set_Elements full_line.
Proof.
  assert (HT : Set_Top full_line
               = Ok (1, set_items full_line
                          (mkNode (mkIAD 3 (F32.of_Z 9) false)
                             (mkNode (mkIAD 1 (F32.of_Z 1) true)
                                nilNode (leaf (mkIAD 2 (F32.of_Z 4) false)))
                             (leaf (mkIAD 5 (F32.of_Z 25) false)))))
    by reflexivity.
  eexists. split; [ exact HT | ].
  exact (proj1 (Top_changes_one_flag _ _ _ Inv_full_line HT)).
Defined.

(** X7.  On a non-empty set [NotVisited] returns, and its answer is the
    found flag of the [Node.Top] that comes next: true exactly when some
    stored entry is unvisited. *)
Theorem NotVisited_agrees_with_Top s :
  items s <> nilNode ->
  exists b i n',
    Set_NotVisited s = Ok b
    /\ Node_Top (items s) = Ok (i, b, n')
    /\ (b = true <-> Exists (fun e => visited e = false) (entries (items s))).
Proof.
  intros Hn.
  destruct (Node_Top_spec _ Hn) as (i & found & n' & HT & Ha & _).
  exists found, i, n'. unfold Set_NotVisited.
  rewrite (Node_NotVisited_spec _ Hn), existsb_find_unvisited.
  unfold top_answer in Ha.
  destruct (find unvisited (entries (items s))) as [e | ] eqn:Hfind;
    injection Ha as <- <-.
  - split; [ reflexivity | ]. split; [ exact HT | ].
    split; [ intros _ | reflexivity ].
    destruct (find_unvisited_split _ _ Hfind) as (pre & post & -> & _ & Hv & _).
    apply Exists_app. right. left. exact Hv.
  - split; [ reflexivity | ]. split; [ exact HT | ].
    split; [ discriminate | ]. intros Hex. apply Exists_exists in Hex.
    destruct Hex as (e & Hin & Hv).
    pose proof (find_unvisited_none _ Hfind) as Hall.
    rewrite Forall_forall in Hall. rewrite (Hall e Hin) in Hv. discriminate Hv.
Qed.

Lemma NotVisited_agrees_with_Top_witness :
  exists b i n',
    Set_NotVisited spent_seven = Ok b
    /\ Node_Top (items spent_seven) = Ok (i, b, n').
Proof.
  destruct (NotVisited_agrees_with_Top spent_seven ltac:(simpl; discriminate))
    as (b & i & n' & H1 & H2 & _).
  exists b, i, n'. split; assumption.
Defined.

(** ** What [Add] keeps *)

(** X8.  An [Add] that returns never lowers the size and raises it by at
    most one; on a full set the size stays at the capacity, while the
    number of stored entries may drop. *)
Theorem Size_never_decreases s x s' :
  Inv s -> Set_Add s x = Ok s' ->
  Set_Size s <= Set_Size s' <= Set_Size s + 1
  /\ (Set_Size s = capacity s -> Set_Size s' = capacity s')
  /\ (length (ids s') <= S (length (ids s)))%nat.
Proof.
  intros HI Hadd.
  destruct (Set_Add_outcome_Inv s x s' HI Hadd)
    as ((_ & _ & _ & Hcap) & [(Hfull & -> & _) | (base & Hbase & Hplaced)]).
  { unfold Set_Size. repeat split; auto; lia. }
  unfold Set_Size, ids. rewrite !length_map.
  assert (Hlen : (length (entries (items s')) <= S (length base))%nat).
  { destruct Hplaced as [(_ & ->) | Hins];
      [ lia | rewrite (inserted_length _ _ _ Hins); lia ]. }
  destruct Hbase as [(Hroom & -> & Hsz) | (Hfull & Hsz & last & -> & _)].
  - repeat split; try lia.
  - rewrite length_app. simpl. repeat split; try lia.
Qed.

Lemma Size_never_decreases_witness :
  exists s', Set_Add full_line 1 = Ok s' /\ Set_Size s' = 4 /\ ids s' = [1; 2; 3].
Proof.
  destruct (Set_Add_total full_line 1 Inv_full_line ltac:(simpl; lia))
    as (s' & Hadd).
  destruct (Size_never_decreases _ _ _ Inv_full_line Hadd) as (_ & Hfull & _).
  exists s'. split; [ exact Hadd | ]. split.
  - rewrite (Hfull eq_refl).
    exact (proj1 (proj2 (Set_Add_Inv _ _ _ Inv_full_line Hadd))).
  - assert (H : rmap ids (Set_Add full_line 1) = Ok [1; 2; 3]) by reflexivity.
    rewrite Hadd in H. injection H as H. exact H.
Defined.

(** X9.  An [Add] that returns leaves every entry it keeps as it was,
    with its ID, distance, flag and place among the others; the one entry
    it can drop is the last of the traversal, the one it can bring in is
    the candidate; it assigns none of the collaborators. *)
Theorem Add_keeps_the_other_entries s x s' :
  Inv s -> Set_Add s x = Ok s' ->
  exists base,
    (base = entries (items s) \/ exists last, entries (items s) = base ++ [last])
    /\ (entries (items s') = base
        \/ inserted (candidate s x) base (entries (items s')))
    /\ same_params s s'.
Proof.
  intros HI Hadd.
  destruct (Set_Add_outcome_Inv s x s' HI Hadd)
    as (Hpar & [(_ & -> & _) | (base & Hbase & Hplaced)]).
  - exists (entries (items s)). split; [ left; reflexivity | ].
    split; [ left; reflexivity | exact Hpar ].
  - exists base. split.
    + destruct Hbase as [(_ & -> & _) | (_ & _ & last & He & _)];
        [ left; reflexivity | right; exists last; exact He ].
    + split; [ | exact Hpar ].
      destruct Hplaced as [(_ & He) | Hins]; [ left | right ]; assumption.
Qed.

Lemma Add_keeps_the_other_entries_witness :
  exists s' base,
    Set_Add full_line 4 = Ok s'
    /\ (base = entries (items full_line)
        \/ exists last, entries (items full_line) = base ++ [last])
    /\ (entries (items s') = base
        \/ inserted (candidate full_line 4) base (entries (items s'))).
Proof.
  destruct (Set_Add_total full_line 4 Inv_full_line ltac:(simpl; lia))
    as (s' & Hadd).
  destruct (Add_keeps_the_other_entries _ _ _ Inv_full_line Hadd)
    as (base & Hb & Hp & _).
  exists s', base. split; [ exact Hadd | split; assumption ].
Defined.

(** X10.  On a full set, after an [Add] that returns no stored entry is
    strictly farther from the center than the farthest entry was before
    it: the reach of a full set never grows. *)
Theorem farthest_never_grows s x s' kept last :
  Inv s -> size s = capacity s ->
  entries (items s) = kept ++ [last] ->
  Set_Add s x = Ok s' ->
  Forall (fun e => F32.lt (distance last) (distance e) = false)
    (entries (items s')).
Proof.
  intros HI Hfull He Hadd. pose proof HI as [Ho _ _ _ _].
  assert (Hfar : Forall (fun e => F32.lt (distance last) (distance e) = false)
                   (kept ++ [last])).
  { apply (sorted_last_farthest kept last). rewrite <- He.
    apply ordered_sorted. exact Ho. }
  destruct (Set_Add_outcome_Inv s x s' HI Hadd)
    as (_ & [(_ & -> & _) | (base & Hbase & Hplaced)]).
  - rewrite He. exact Hfar.
  - destruct Hbase as [(Hroom & _) | (_ & _ & last' & He' & Hlt)]; [ lia | ].
    rewrite He in He'. apply app_inj_tail in He'. destruct He' as [<- <-].
    apply Forall_app in Hfar. destruct Hfar as [Hkept _].
    destruct Hplaced as [(_ & ->) | Hins]; [ exact Hkept | ].
    apply (inserted_Forall _ _ _ _ Hins); [ exact Hlt | exact Hkept ].
Qed.

Lemma farthest_never_grows_witness :
  exists s',
    Set_Add full_line 4 = Ok s'
    /\ Forall (fun e => F32.lt (F32.of_Z 25) (distance e) = false)
         (entries (items s')).
Proof.
  destruct (Set_Add_total full_line 4 Inv_full_line ltac:(simpl; lia))
    as (s' & Hadd).
  exists s'. split; [ exact Hadd | ].
  exact (farthest_never_grows full_line 4 s'
           [mkIAD 1 (F32.of_Z 1) false; mkIAD 2 (F32.of_Z 4) false;
            mkIAD 3 (F32.of_Z 9) false]
           (mkIAD 5 (F32.of_Z 25) false)
           Inv_full_line eq_refl eq_refl Hadd).
Defined.

(** X11.  After an [Add] that returns, the ID is stored, unless the set
    was full and the candidate strictly farther than its last entry, in
    which case the set is as it was. *)
Theorem Add_stores_or_rejects s x s' :
  Inv s -> Set_Add s x = Ok s' ->
  In x (ids s')
  \/ (s' = s /\ Set_Size s = capacity s
      /\ exists kept last,
           entries (items s) = kept ++ [last]
           /\ F32.lt (distance last) (candidate_distance s x) = true).
Proof.
  intros HI Hadd.
  destruct (Set_Add_outcome_Inv s x s' HI Hadd)
    as (_ & [(Hfull & -> & Hrej) | (base & _ & Hplaced)]).
  - right. split; [ reflexivity | split; assumption ].
  - left. unfold ids. destruct Hplaced as [(Hin & ->) | Hins]; [ exact Hin | ].
    apply in_map_iff. exists (candidate s x). split; [ reflexivity | ].
    apply (inserted_In _ _ _ Hins). left. reflexivity.
Qed.

Lemma Add_stores_or_rejects_witness :
  exists s', Set_Add pair_line 9 = Ok s' /\ In 9 (ids s').
Proof.
  destruct (Set_Add_total pair_line 9 (sound_inv _ Sound_pair_line)
              ltac:(simpl; lia)) as (s' & Hadd).
  exists s'. split; [ exact Hadd | ].
  destruct (Add_stores_or_rejects _ _ _ (sound_inv _ Sound_pair_line) Hadd)
    as [Hin | (_ & Hfull & _)]; [ exact Hin | discriminate Hfull ].
Defined.

(** X12.  [AddRange] of a concatenation is [AddRange] of the first part
    followed by [AddRange] of the second on the set the first left, and a
    panic in the first part is the outcome of the whole; [AddRange] of one
    ID is [Add]. *)
Theorem AddRange_app s xs ys :
  Set_AddRange s (xs ++ ys) = (s' <- Set_AddRange s xs ;; Set_AddRange s' ys)
  /\ (forall p, Set_AddRange s xs = Panic p ->
                Set_AddRange s (xs ++ ys) = Panic p)
  /\ (forall x, Set_AddRange s [x] = Set_Add s x).
Proof.
  assert (H : forall s, Set_AddRange s (xs ++ ys)
                        = (s' <- Set_AddRange s xs ;; Set_AddRange s' ys)).
  { clear s. induction xs as [ | x xs IH]; intros s; [ reflexivity | ].
    cbn [app Set_AddRange].
    destruct (Set_Add s x) as [s1 | p]; cbn [bind]; [ apply IH | reflexivity ]. }
  split; [ apply H | ]. split.
  - intros p Hp. rewrite H, Hp. reflexivity.
  - intros x. cbn [Set_AddRange]. destruct (Set_Add s x); reflexivity.
Qed.

(** ** Where a new entry goes *)

Lemma entries_node d l r :
  entries (mkNode d l r) = entries l ++ d :: entries r.
Proof. reflexivity. Qed.

(** With no NaN among the distances, [Node.Add] puts an entry with a new
    ID behind the entries that are at most as far and in front of those
    that are strictly farther. *)
Lemma Node_Add_position n data :
  n <> nilNode -> ordered n -> no_nan (entries n) ->
  F32.is_nan (distance data) = false ->
  ~ In (index data) (map index (entries n)) ->
  exists n' pre post,
    Node_Add n data = Ok n'
    /\ entries n = pre ++ post
    /\ entries n' = pre ++ data :: post
    /\ Forall (fun e => F32.le (distance e) (distance data) = true) pre
    /\ Forall (fun e => F32.lt (distance data) (distance e) = true) post.
Proof.
  induction n as [ | d l IHl r IHr]; intros Hn Ho Hnan Hdn Hfresh;
    [ congruence | clear Hn ].
  cbn [ordered] in Ho. destruct Ho as (Hl & Hr & Hol & Hor).
  unfold no_nan in *. cbn [entries] in Hnan, Hfresh.
  apply Forall_app in Hnan. destruct Hnan as [Hnl Hnr].
  apply Forall_cons_iff in Hnr. destruct Hnr as [Hnd Hnr].
  rewrite map_app, in_app_iff in Hfresh. cbn [map In] in Hfresh.
  cbn [Node_Add].
  destruct (Z.eqb_spec (index d) (index data)) as [Heq | _]; [ tauto | ].
  rewrite Forall_forall in Hl, Hr, Hnl, Hnr.
  unfold F32.gt in *.
  destruct (SFltb (distance data) (distance d)) eqn:Hgt.
  - assert (Hpost : Forall (fun e => F32.lt (distance data) (distance e) = true)
                      (d :: entries r)).
    { constructor; [ exact Hgt | ]. apply Forall_forall. intros e He.
      apply (F32_lt_le_trans _ (distance d)); [ exact Hgt | ].
      apply F32Order.not_lt_le; [ exact Hnd | exact (Hnr e He) | exact (Hr e He) ]. }
    destruct l as [ | ld ll lr].
    + exists (mkNode d (leaf data) r), [], (d :: entries r).
      split; [ reflexivity | ]. split; [ reflexivity | ].
      split; [ reflexivity | ]. split; [ constructor | exact Hpost ].
    + destruct IHl as (l' & pre & post & -> & He & He' & Hpre & Hpo).
      * discriminate.
      * exact Hol.
      * apply Forall_forall. exact Hnl.
      * exact Hdn.
      * tauto.
      * exists (mkNode d l' r), pre, (post ++ d :: entries r).
        split; [ reflexivity | ].
        rewrite (entries_node d l' r), (entries_node d (mkNode ld ll lr) r).
        rewrite He, He'.
        split; [ rewrite <- app_assoc; reflexivity | ].
        split; [ rewrite <- app_assoc; reflexivity | ].
        split; [ exact Hpre | ]. apply Forall_app. split; assumption.
  - assert (Hd : F32.le (distance d) (distance data) = true).
    { apply F32Order.not_lt_le; assumption. }
    assert (Hpre : Forall (fun e => F32.le (distance e) (distance data) = true)
                     (entries l ++ [d])).
    { apply Forall_app. split; [ | constructor; [ exact Hd | constructor ] ].
      apply Forall_forall. intros e He. apply F32_lt_le.
      apply (F32_lt_le_trans _ (distance d)); [ exact (Hl e He) | exact Hd ]. }
    destruct r as [ | rd rl rr].
    + exists (mkNode d l (leaf data)), (entries l ++ [d]), [].
      split; [ reflexivity | ]. cbn [entries leaf app].
      split; [ rewrite app_nil_r; reflexivity | ].
      split; [ rewrite <- app_assoc; reflexivity | ].
      split; [ exact Hpre | constructor ].
    + destruct IHr as (r' & pre & post & -> & He & He' & Hpr & Hpo).
      * discriminate.
      * exact Hor.
      * apply Forall_forall. exact Hnr.
      * exact Hdn.
      * tauto.
      * exists (mkNode d l r'), ((entries l ++ [d]) ++ pre), post.
        split; [ reflexivity | ].
        rewrite (entries_node d l r'), (entries_node d l (mkNode rd rl rr)).
        rewrite He, He'.
        split; [ rewrite <- !app_assoc; reflexivity | ].
        split; [ rewrite <- !app_assoc; reflexivity | ].
        split; [ | exact Hpo ]. apply Forall_app. split; assumption.
Qed.

(** X13.  On a set with room and no NaN among the distances, [Add] of an
    ID that is not stored puts the new entry behind every stored entry that
    is at most as far from the center and in front of every one that is
    strictly farther: entries at the same distance stay in the order in
    which they were added. *)
Theorem Add_inserts_behind_ties s x :
  Inv s -> size s < capacity s -> ~ In x (ids s) ->
  no_nan (entries (items s)) ->
  F32.is_nan (candidate_distance s x) = false ->
  exists s' pre post,
    Set_Add s x = Ok s'
    /\ entries (items s) = pre ++ post
    /\ entries (items s') = pre ++ candidate s x :: post
    /\ Forall (fun e => F32.le (distance e) (candidate_distance s x) = true) pre
    /\ Forall (fun e => F32.lt (candidate_distance s x) (distance e) = true) post.
Proof.
  intros HI Hroom Hfresh Hnan Hdn. pose proof HI as [Ho Hc Hs Hcap Hseed].
  assert (Hlen := Nat2Z.is_nonneg (length (entries (items s)))).
  destruct (Set_Add_reduce s x HI)
    as [(_ & Heq) | [(Hfull & _) | (Hfull & _)]]; [ | lia | lia ].
  rewrite Heq. unfold Set_Add_place. cbn [set_size items size].
  unfold ids in Hfresh.
  destruct (items s) as [ | d l r] eqn:Hi.
  - eexists _, [], []. split; [ reflexivity | ].
    split; [ reflexivity | ]. split; [ reflexivity | ]. split; constructor.
  - destruct (Node_Add_position (mkNode d l r) (candidate s x))
      as (n' & pre & post & Hadd & He & He' & Hpre & Hpost);
      [ discriminate | exact Ho | exact Hnan | exact Hdn | exact Hfresh | ].
    unfold candidate in Hadd. rewrite Hadd. cbn [bind].
    eexists _, pre, post. split; [ reflexivity | ].
    split; [ exact He | ]. split; [ exact He' | ]. split; assumption.
Qed.

Lemma Inv_tie_seed : Inv tie_seed.
Proof.
  constructor; simpl; auto; try (unfold int_max; lia). discriminate.
Defined.

Lemma Add_inserts_behind_ties_witness :
  exists s' pre post,
    Set_Add tie_seed 4 = Ok s'
    /\ entries (items s') = pre ++ candidate tie_seed 4 :: post
    /\ Forall (fun e => F32.le (distance e) (candidate_distance tie_seed 4) = true)
         pre
    /\ entries (items tie_seed) = pre ++ post.
Proof.
  destruct (Add_inserts_behind_ties tie_seed 4 Inv_tie_seed)
    as (s' & pre & post & Hadd & He & He' & Hpre & _).
  - simpl. lia.
  - simpl. intros [H | []]. discriminate H.
  - repeat constructor.
  - reflexivity.
  - exists s', pre, post. repeat split; assumption.
Defined.

(** ** The tree under ascending arrivals *)

Lemma StronglySorted_weaken {A : Type} (R R' : A -> A -> Prop) (l : list A) :
  (forall a b, R a b -> R' a b) -> StronglySorted R l -> StronglySorted R' l.
Proof.
  intros HR. induction 1 as [ | a l Hs IH Hall]; constructor; [ exact IH | ].
  eapply Forall_impl; [ | exact Hall ]. intros b. apply HR.
Qed.

Lemma right_spine_height n :
  right_spine n -> Node_height n = length (entries n).
Proof.
  induction n as [ | d l _ r IHr]; [ reflexivity | ].
  cbn [right_spine]. intros (-> & Hr). cbn [Node_height entries app length].
  rewrite (IHr Hr). reflexivity.
Qed.

(** On a tree without left children, an entry with a new ID that no
    stored entry is strictly farther than goes to the far end. *)
Lemma Node_Add_append n data :
  n <> nilNode -> right_spine n ->
  Forall (fun e => F32.gt (distance e) (distance data) = false) (entries n) ->
  ~ In (index data) (map index (entries n)) ->
  exists n',
    Node_Add n data = Ok n' /\ n' <> nilNode /\ right_spine n'
    /\ entries n' = entries n ++ [data].
Proof.
  induction n as [ | d l _ r IHr]; intros Hn Hsp Hfar Hfresh;
    [ congruence | clear Hn ].
  cbn [right_spine] in Hsp. destruct Hsp as (-> & Hr).
  cbn [entries app] in Hfar, Hfresh.
  apply Forall_cons_iff in Hfar. destruct Hfar as [Hd Hfar].
  cbn [map In] in Hfresh.
  cbn [Node_Add].
  destruct (Z.eqb_spec (index d) (index data)) as [Heq | _]; [ tauto | ].
  rewrite Hd.
  destruct r as [ | rd rl rr].
  - exists (mkNode d nilNode (leaf data)).
    split; [ reflexivity | ]. split; [ discriminate | ].
    split; [ simpl; auto | reflexivity ].
  - destruct IHr as (r' & -> & Hr' & Hsp' & He);
      [ discriminate | exact Hr | exact Hfar | tauto | ].
    exists (mkNode d nilNode r').
    split; [ reflexivity | ]. split; [ discriminate | ].
    split; [ simpl; auto | ].
    rewrite (entries_node d nilNode r'), He. reflexivity.
Qed.

Lemma AddRange_ascending xs : forall s,
  Inv s -> right_spine (items s) ->
  size s + Z.of_nat (length xs) <= capacity s ->
  NoDup (ids s ++ xs) ->
  StronglySorted
    (fun a b => F32.lt (candidate_distance s b) (candidate_distance s a) = false)
    xs ->
  (forall x e, In x xs -> In e (entries (items s)) ->
               F32.lt (candidate_distance s x) (distance e) = false) ->
  exists s',
    Set_AddRange s xs = Ok s'
    /\ ids s' = ids s ++ xs
    /\ right_spine (items s').
Proof.
  induction xs as [ | x xs IH]; intros s HI Hsp Hroom Hnd Hsort Hfar.
  - exists s. split; [ reflexivity | ].
    split; [ rewrite app_nil_r; reflexivity | exact Hsp ].
  - pose proof HI as [Ho Hc Hs Hcap Hseed].
    assert (Hlen := Nat2Z.is_nonneg (length (entries (items s)))).
    cbn [length] in Hroom.
    apply StronglySorted_inv in Hsort. destruct Hsort as [Hsort Hx].
    assert (Hfresh : ~ In x (ids s)).
    { intros Hin. apply NoDup_remove_2 in Hnd. apply Hnd.
      apply in_or_app. left. exact Hin. }
    assert (Hstep : exists s1,
              Set_Add s x = Ok s1 /\ ids s1 = ids s ++ [x]
              /\ right_spine (items s1)
              /\ entries (items s1) = entries (items s) ++ [candidate s x]).
    { destruct (Set_Add_reduce s x HI)
        as [(_ & Heq) | [(Hfull & _) | (Hfull & _)]]; [ | lia | lia ].
      rewrite Heq. unfold Set_Add_place. cbn [set_size items size].
      unfold ids in *.
      destruct (items s) as [ | d l r] eqn:Hi.
      - eexists. split; [ reflexivity | ]. cbn. auto.
      - destruct (Node_Add_append (mkNode d l r) (candidate s x))
          as (n' & Hadd & _ & Hsp' & He);
          [ discriminate | exact Hsp | | exact Hfresh | ].
        { apply Forall_forall. intros e He. unfold F32.gt.
          apply (Hfar x e); [ left; reflexivity | exact He ]. }
        unfold candidate in Hadd. rewrite Hadd. cbn [bind].
        eexists. split; [ reflexivity | ]. cbn [items set_items].
        split; [ rewrite He, map_app; reflexivity | ].
        split; [ exact Hsp' | exact He ]. }
    destruct Hstep as (s1 & Hadd & Hids & Hsp1 & He1).
    destruct (Set_Add_Inv _ _ _ HI Hadd) as (HI1 & Hcap1 & _).
    destruct (Set_Add_outcome_Inv _ _ _ HI Hadd) as (Hpar & _).
    assert (Hsz1 : size s1 <= size s + 1).
    { destruct (Set_Add_reduce s x HI)
        as [(_ & Heq) | [(Hfull & _) | (Hfull & _)]]; [ | lia | lia ].
      destruct (Set_Add_place_spec s x (candidate_distance s x))
        as (n' & Hp & _); [ lia | ].
      rewrite Heq, Hp in Hadd. injection Hadd as <-. cbn. lia. }
    destruct (IH s1 HI1 Hsp1) as (s' & Hrun & Hids' & Hsp').
    + lia.
    + rewrite Hids, <- app_assoc. exact Hnd.
    + eapply StronglySorted_weaken; [ | exact Hsort ].
      intros a b. rewrite !(candidate_distance_params _ _ _ Hpar). auto.
    + intros y e Hy He. rewrite (candidate_distance_params _ _ _ Hpar).
      rewrite He1 in He. apply in_app_or in He.
      destruct He as [He | [<- | []]].
      * apply Hfar; [ right; exact Hy | exact He ].
      * cbn. rewrite Forall_forall in Hx. exact (Hx y Hy).
    + exists s'. cbn [Set_AddRange]. rewrite Hadd. cbn [bind].
      split; [ exact Hrun | ].
      split; [ rewrite Hids', Hids, <- app_assoc; reflexivity | exact Hsp' ].
Qed.

(** X14.  The tree is never rebalanced.  IDs that arrive in ascending
    order of distance, distinct and no more than the capacity, are all
    stored, [Elements] order being arrival order, in a tree without a
    single left child: its height is the number of its entries. *)
Theorem ascending_arrivals_make_a_list L vf dist c xs :
  0 <= L <= int_max -> Z.of_nat (length xs) <= L -> NoDup xs ->
  StronglySorted
    (fun a b => F32.lt (dist (fst (vf b)) c) (dist (fst (vf a)) c) = false) xs ->
  exists s,
    Set_AddRange (NewSet L vf dist c) xs = Ok s
    /\ ids s = xs
    /\ right_spine (items s)
    /\ Node_height (items s) = length xs.
Proof.
  intros HL Hlen Hnd Hsort.
  destruct (AddRange_ascending xs (NewSet L vf dist c)) as (s & Hrun & Hids & Hsp).
  - apply Inv_NewSet. exact HL.
  - exact I.
  - cbn. lia.
  - exact Hnd.
  - exact Hsort.
  - intros x e _ [].
  - exists s. split; [ exact Hrun | ]. split; [ exact Hids | ].
    split; [ exact Hsp | ].
    rewrite (right_spine_height _ Hsp). unfold ids in Hids. cbn in Hids.
    rewrite <- Hids, length_map. reflexivity.
Qed.

Lemma ascending_arrivals_make_a_list_witness :
  exists s,
    Set_AddRange (NewSet 4 line_source sqEuclid origin) [1; 2; 3; 5] = Ok s
    /\ Node_height (items s) = 4%nat.
Proof.
  destruct (ascending_arrivals_make_a_list 4 line_source sqEuclid origin
              [1; 2; 3; 5]) as (s & Hrun & _ & _ & Hh).
  - unfold int_max. lia.
  - simpl. lia.
  - repeat constructor; simpl; intuition discriminate.
  - repeat constructor.
  - exists s. split; [ exact Hrun | exact Hh ].
Defined.

(** * Properties of the schema sync at startup *)

Module ClusterSyncFacts.

Import ClusterSync.

Section Facts.

Context {Class Schema State ClusterError OtherPayload : Type}.
Variable Classes : Schema -> list Class.
Variable ObjectSchema : State -> option Schema.
Variable Equal : option State -> option State -> bool.

Let Mgr : Type := @Manager State ClusterError OtherPayload.
Let sync (m : Mgr) (localSchema : option State) :=
  startupClusterSync Classes ObjectSchema Equal m localSchema.
Let empty (schema : option State) : result bool :=
  isEmpty Classes ObjectSchema schema.

(** The sync with at most one node in the cluster. *)
Lemma sync_single (m : Mgr) localSchema :
  (length (AllNames m) <= 1)%nat ->
  sync m localSchema = startupHandleSingleNode m (AllNames m).
Proof.
  intros H. unfold sync, startupClusterSync.
  destruct (Nat.leb_spec (length (AllNames m)) 1); [ reflexivity | lia ].
Qed.

(** The sync with two nodes or more. *)
Lemma sync_many (m : Mgr) localSchema :
  (2 <= length (AllNames m))%nat ->
  sync m localSchema =
  match empty localSchema with
  | Panic p => (Panic p, m)
  | Ok true => startupJoinCluster Classes ObjectSchema m localSchema
  | Ok false => validateSchemaCorruption Equal m localSchema
  end.
Proof.
  intros H. unfold sync, startupClusterSync.
  destruct (Nat.leb_spec (length (AllNames m)) 1); [ lia | reflexivity ].
Qed.

(** X15.  With at most one node in the cluster the sync opens no
    transaction, saves nothing and leaves the state alone; it returns
    without a panic, and without an error exactly when the one node of the
    cluster carries the local name. *)
Theorem single_node_needs_no_transaction (m : Mgr) localSchema :
  (length (AllNames m) <= 1)%nat ->
  state (snd (sync m localSchema)) = state m
  /\ (added m (snd (sync m localSchema)) []
      \/ added m (snd (sync m localSchema)) [DebugLogged])
  /\ (exists r, fst (sync m localSchema) = Ok r)
  /\ (fst (sync m localSchema) = Ok None <-> AllNames m = [LocalName m]).
Proof.
  intros Hlen. rewrite (sync_single m localSchema Hlen).
  unfold startupHandleSingleNode, added.
  destruct (AllNames m) as [ | first rest] eqn:Hnodes.
  - cbn. rewrite app_nil_r. repeat split; auto; try (eexists; reflexivity);
      intros H; discriminate H.
  - destruct rest as [ | second rest]; [ | simpl in Hlen; lia ].
    destruct (String.eqb_spec first (LocalName m)) as [Heq | Hne]; cbn.
    + rewrite Heq. repeat split; auto. eexists; reflexivity.
    + rewrite app_nil_r. repeat split; auto; try (eexists; reflexivity);
        intros H; [ discriminate H | congruence ].
Qed.

(** X16.  The sync opens a read transaction at most once.  When opening
    it fails, the error is returned and nothing else is called.  When it
    succeeds, [CloseReadTransaction] is called with the transaction that
    was opened, as the last call, also when the sync panics; the only call
    that can come in between is one [saveSchema]. *)
Theorem every_transaction_is_closed (m : Mgr) localSchema :
  added m (snd (sync m localSchema)) []
  \/ added m (snd (sync m localSchema)) [DebugLogged]
  \/ (exists err,
        snd (BeginTransaction m) = Some err
        /\ added m (snd (sync m localSchema)) [BeginTransactionCalled]
        /\ fst (sync m localSchema) = Ok (Some (OpenTransaction err)))
  \/ (snd (BeginTransaction m) = None
      /\ exists mid,
           added m (snd (sync m localSchema))
             (BeginTransactionCalled :: mid
                ++ [CloseReadTransactionCalled (fst (BeginTransaction m))])
           /\ (mid = [] \/ exists st, mid = [SaveSchemaCalled st])).
Proof.
  unfold sync, startupClusterSync, startupHandleSingleNode,
    startupJoinCluster, validateSchemaCorruption, deferred_close, added.
  destruct (length (AllNames m) <=? 1)%nat.
  { destruct (AllNames m) as [ | first rest].
    - left. cbn. rewrite app_nil_r. reflexivity.
    - destruct (negb (String.eqb first (LocalName m))); cbn.
      + left. rewrite app_nil_r. reflexivity.
      + right. left. reflexivity. }
  destruct (isEmpty Classes ObjectSchema localSchema) as [[ | ] | p].
  - cbn [BeginTransaction record_event].
    destruct (BeginTransaction m) as [tx [err | ]] eqn:Hb.
    + right. right. left. exists err. cbn. auto.
    + right. right. right. split; [ reflexivity | ].
      destruct tx as [t | ].
      * destruct (Payload t) as [schema | p].
        -- destruct (isEmpty Classes ObjectSchema schema) as [[ | ] | p].
           ++ exists []. cbn. rewrite <- app_assoc. auto.
           ++ destruct schema as [st | ].
              ** exists [SaveSchemaCalled st]. cbn.
                 rewrite <- !app_assoc. split; [ reflexivity | right; eauto ].
              ** exists []. cbn. rewrite <- app_assoc. auto.
           ++ exists []. cbn. rewrite <- app_assoc. auto.
        -- exists []. cbn. rewrite <- app_assoc. auto.
      * exists []. cbn. rewrite <- app_assoc. auto.
  - cbn [BeginTransaction record_event].
    destruct (BeginTransaction m) as [tx [err | ]] eqn:Hb.
    + right. right. left. exists err. cbn. auto.
    + right. right. right. split; [ reflexivity | ].
      exists []. split; [ | left; reflexivity ].
      destruct tx as [t | ]; [ destruct (Payload t) as [schema | p];
        [ destruct (negb (Equal localSchema schema)) | ] | ];
        cbn; rewrite <- app_assoc; reflexivity.
  - left. cbn. rewrite app_nil_r. reflexivity.
Qed.

(** X17.  A node with an empty local schema that joins a cluster of two
    nodes or more, where the other nodes agree on a non-empty schema, takes
    that schema as its state and saves it once, between opening and closing
    the transaction, and returns no error; where they agree on an empty
    schema it changes and saves nothing. *)
Theorem joining_node_takes_the_consensus (m : Mgr) localSchema t st :
  (2 <= length (AllNames m))%nat ->
  empty localSchema = Ok true ->
  BeginTransaction m = (Some t, None) ->
  Payload t = ReadSchemaPayload (Some st) ->
  fst (sync m localSchema) = Ok None
  /\ (empty (Some st) = Ok false ->
      state (snd (sync m localSchema)) = st
      /\ added m (snd (sync m localSchema))
           [BeginTransactionCalled; SaveSchemaCalled st;
            CloseReadTransactionCalled (Some t)])
  /\ (empty (Some st) = Ok true ->
      state (snd (sync m localSchema)) = state m
      /\ added m (snd (sync m localSchema))
           [BeginTransactionCalled; CloseReadTransactionCalled (Some t)]).
Proof.
  intros Hlen Hlocal Hb Hp. rewrite (sync_many m localSchema Hlen), Hlocal.
  unfold startupJoinCluster, deferred_close, added.
  cbn [BeginTransaction record_event]. rewrite Hb, Hp.
  fold (empty (Some st)).
  destruct (empty (Some st)) as [[ | ] | p] eqn:He.
  - cbn. rewrite <- app_assoc. repeat split; auto; discriminate.
  - cbn. rewrite <- !app_assoc. repeat split; auto; discriminate.
  - unfold empty, isEmpty in He. destruct (ObjectSchema st) as [sc | ];
      [ destruct (length (Classes sc) =? 0)%nat | ]; discriminate He.
Qed.

(** X18.  A node with a non-empty local schema in a cluster of two nodes
    or more never changes or saves its state; once the transaction has
    answered with the schema the others agree on, the sync returns no error
    exactly when [Equal] holds of the local schema and that one. *)
Theorem node_with_schema_only_validates (m : Mgr) localSchema :
  (2 <= length (AllNames m))%nat ->
  empty localSchema = Ok false ->
  state (snd (sync m localSchema)) = state m
  /\ (added m (snd (sync m localSchema)) [BeginTransactionCalled]
      \/ added m (snd (sync m localSchema))
           [BeginTransactionCalled;
            CloseReadTransactionCalled (fst (BeginTransaction m))])
  /\ (forall t schema,
        BeginTransaction m = (Some t, None) ->
        Payload t = ReadSchemaPayload schema ->
        fst (sync m localSchema)
        = Ok (if Equal localSchema schema then None else Some SchemaOutOfSync)).
Proof.
  intros Hlen Hlocal. rewrite (sync_many m localSchema Hlen), Hlocal.
  unfold validateSchemaCorruption, deferred_close, added.
  cbn [BeginTransaction record_event].
  destruct (BeginTransaction m) as [tx [err | ]] eqn:Hb.
  - cbn. split; [ reflexivity | ].
    split; [ left; reflexivity | intros t schema H; discriminate H ].
  - split; [ | split ].
    + destruct tx as [t | ]; [ destruct (Payload t) as [schema | p];
        [ destruct (negb (Equal localSchema schema)) | ] | ]; reflexivity.
    + right.
      destruct tx as [t | ]; [ destruct (Payload t) as [schema | p];
        [ destruct (negb (Equal localSchema schema)) | ] | ];
        cbn; rewrite <- app_assoc; reflexivity.
    + intros t schema [= -> ] Hp. rewrite Hp.
      destruct (Equal localSchema schema); reflexivity.
Qed.

(** X19.  The sync replaces the state only on one path: two nodes or more,
    an empty local schema, a transaction that opened and answered with a
    non-empty schema; the new state is that schema and no error is
    returned.  On every other path, each error and each panic among them,
    the state is the one the manager had. *)
Theorem state_changes_only_by_joining (m : Mgr) localSchema :
  state (snd (sync m localSchema)) = state m
  \/ ((2 <= length (AllNames m))%nat
      /\ empty localSchema = Ok true
      /\ exists t st,
           BeginTransaction m = (Some t, None)
           /\ Payload t = ReadSchemaPayload (Some st)
           /\ empty (Some st) = Ok false
           /\ state (snd (sync m localSchema)) = st
           /\ fst (sync m localSchema) = Ok None).
Proof.
  destruct (Nat.leb_spec (length (AllNames m)) 1) as [Hlen | Hlen].
  { left. exact (proj1 (single_node_needs_no_transaction m localSchema Hlen)). }
  assert (Hlen2 : (2 <= length (AllNames m))%nat) by lia.
  rewrite (sync_many m localSchema Hlen2).
  destruct (empty localSchema) as [[ | ] | p] eqn:Hlocal.
  - unfold startupJoinCluster, deferred_close.
    cbn [BeginTransaction record_event].
    destruct (BeginTransaction m) as [tx [err | ]] eqn:Hb; [ left; reflexivity | ].
    destruct tx as [t | ]; [ | left; reflexivity ].
    destruct (Payload t) as [schema | p] eqn:Hp; [ | left; reflexivity ].
    fold (empty schema).
    destruct (empty schema) as [[ | ] | p] eqn:He; [ left; reflexivity | | left; reflexivity ].
    destruct schema as [st | ]; [ | left; reflexivity ].
    right. split; [ exact Hlen2 | ]. split; [ reflexivity | ].
    exists t, st. repeat split; auto.
  - left. unfold validateSchemaCorruption, deferred_close.
    cbn [BeginTransaction record_event].
    destruct (BeginTransaction m) as [tx [err | ]]; [ reflexivity | ].
    destruct tx as [t | ]; [ destruct (Payload t) as [schema | p];
      [ destruct (negb (Equal localSchema schema)) | ] | ]; reflexivity.
  - left. reflexivity.
Qed.

(** X20.  The sync panics in these cases only, each a nil pointer: two
    nodes or more, and the local schema pointer is nil; or the transaction
    opened without an error and without a transaction; or, on the joining
    path, it answered with a nil schema pointer. *)
Theorem sync_panics_on_nil_only (m : Mgr) localSchema p :
  fst (sync m localSchema) = Panic p ->
  p = NilDereference
  /\ (2 <= length (AllNames m))%nat
  /\ (localSchema = None
      \/ BeginTransaction m = (None, None)
      \/ (empty localSchema = Ok true
          /\ exists t, BeginTransaction m = (Some t, None)
                       /\ Payload t = ReadSchemaPayload None)).
Proof.
  destruct (Nat.leb_spec (length (AllNames m)) 1) as [Hlen | Hlen].
  { destruct (single_node_needs_no_transaction m localSchema Hlen)
      as (_ & _ & (r & Hr) & _). rewrite Hr. discriminate. }
  assert (Hlen2 : (2 <= length (AllNames m))%nat) by lia.
  rewrite (sync_many m localSchema Hlen2).
  destruct (empty localSchema) as [[ | ] | q] eqn:Hlocal.
  - unfold startupJoinCluster, deferred_close.
    cbn [BeginTransaction record_event].
    destruct (BeginTransaction m) as [tx [err | ]] eqn:Hb; [ discriminate | ].
    destruct tx as [t | ]; [ | intros [= <-]; auto ].
    destruct (Payload t) as [schema | o] eqn:Hp; [ | discriminate ].
    destruct schema as [st | ].
    + cbn [isEmpty]. destruct (ObjectSchema st) as [sc | ];
        [ destruct (length (Classes sc) =? 0)%nat | ]; discriminate.
    + cbn. intros [= <-]. split; [ reflexivity | ]. split; [ exact Hlen2 | ].
      right. right. split; [ reflexivity | ]. exists t. auto.
  - unfold validateSchemaCorruption, deferred_close.
    cbn [BeginTransaction record_event].
    destruct (BeginTransaction m) as [tx [err | ]] eqn:Hb; [ discriminate | ].
    destruct tx as [t | ]; [ | intros [= <-]; auto ].
    destruct (Payload t) as [schema | o]; [ | discriminate ].
    destruct (negb (Equal localSchema schema)); discriminate.
  - cbn. intros [= <-]. unfold empty, isEmpty in Hlocal.
    destruct localSchema as [st | ].
    + destruct (ObjectSchema st) as [sc | ];
        [ destruct (length (Classes sc) =? 0)%nat | ]; discriminate Hlocal.
    + injection Hlocal as <-. auto.
Qed.

End Facts.

Lemma single_node_needs_no_transaction_witness :
  fst (demo_sync (demo_manager [node1] node1 consensus_12) None) = Ok None
  /\ fst (demo_sync (demo_manager [node2] node1 consensus_12) None)
     <> Ok None.
Proof.
  split.
  - apply (single_node_needs_no_transaction demo_Classes demo_ObjectSchema
             demo_Equal (demo_manager [node1] node1 consensus_12) None).
    + simpl. lia.
    + reflexivity.
  - intros H.
    apply (single_node_needs_no_transaction demo_Classes demo_ObjectSchema
             demo_Equal (demo_manager [node2] node1 consensus_12) None) in H.
    + discriminate H.
    + simpl. lia.
Defined.

Lemma joining_node_takes_the_consensus_witness :
  state (snd (demo_sync (demo_manager two_nodes node1 consensus_12) (Some None)))
  = Some [1%nat; 2%nat].
Proof.
  refine (proj1 (proj1 (proj2
    (joining_node_takes_the_consensus demo_Classes demo_ObjectSchema demo_Equal
       (demo_manager two_nodes node1 consensus_12) (Some None)
       (mkTransaction (ReadSchemaPayload (Some (Some [1%nat; 2%nat]))))
       (Some [1%nat; 2%nat]) _ eq_refl eq_refl eq_refl)) eq_refl)).
  simpl. lia.
Defined.

Lemma node_with_schema_only_validates_witness :
  fst (demo_sync (demo_manager two_nodes node1 consensus_12)
         (Some (Some [1%nat; 2%nat]))) = Ok None
  /\ fst (demo_sync (demo_manager two_nodes node1 consensus_12)
            (Some (Some [3%nat]))) = Ok (Some SchemaOutOfSync).
Proof.
  split.
  - refine (proj2 (proj2
      (node_with_schema_only_validates demo_Classes demo_ObjectSchema demo_Equal
         (demo_manager two_nodes node1 consensus_12)
         (Some (Some [1%nat; 2%nat])) _ eq_refl)) _ _ eq_refl eq_refl).
    simpl. lia.
  - refine (proj2 (proj2
      (node_with_schema_only_validates demo_Classes demo_ObjectSchema demo_Equal
         (demo_manager two_nodes node1 consensus_12)
         (Some (Some [3%nat])) _ eq_refl)) _ _ eq_refl eq_refl).
    simpl. lia.
Defined.

Lemma sync_panics_on_nil_only_witness :
  fst (demo_sync (demo_manager two_nodes node1 (None, None)) (Some None))
  = Panic NilDereference
  /\ (2 <= length two_nodes)%nat.
Proof.
  assert (H : fst (demo_sync (demo_manager two_nodes node1 (None, None))
                     (Some None)) = Panic NilDereference) by reflexivity.
  split; [ exact H | ].
  exact (proj1 (proj2 (sync_panics_on_nil_only demo_Classes demo_ObjectSchema
                         demo_Equal _ _ _ H))).
Defined.

End ClusterSyncFacts.

(** * Properties of the schema update for network references *)

Module RefSchemaFacts.

Import RefSchema.

Section Facts.

Context {Kind TargetID Peers Err OtherKind OtherProp OtherSchema : Type}.
Variable ParseSingleRef : option SingleRef -> @Ref Kind TargetID + Err.
Variable RemoteKind :
  Peers -> @NetworkKind Kind TargetID -> @remote_kind OtherKind + Err.

Let Updater : Type := @referenceSchemaUpdater Kind Peers Err.
Let single (u : Updater) := singleRef ParseSingleRef RemoteKind u.
Let each (u : Updater) := eachReference ParseSingleRef RemoteKind u.
Let add (u : Updater) calls (schema : @schema_value OtherProp OtherSchema) :=
  addNetworkDataTypes ParseSingleRef RemoteKind u calls schema.
Let remote := is_remote ParseSingleRef.

(** One reference: it is local and nothing is called; or it goes into
    the network and, all going well, the peers are listed and the schema
    updated once; or it fails, after at most those two calls. *)
Lemma singleRef_shape (u : Updater) calls prop propName o calls' :
  single u calls prop propName = (o, calls') ->
  (o = Returned None /\ remote prop = false /\ calls' = calls)
  \/ (o = Returned None /\ remote prop = true
      /\ exists update,
           asked_by ParseSingleRef (propName, prop) update
           /\ calls' = calls ++ calls_for u update)
  \/ (o <> Returned None
      /\ exists tail, calls' = calls ++ tail /\ stopped_tail u tail).
Proof.
  unfold single, singleRef, remote, is_remote, asked_by, stopped_tail.
  destruct (ParseSingleRef prop) as [parsed | err] eqn:Hparse.
  2:{ intros [= <- <-]. right. right. split; [ discriminate | ].
      exists []. rewrite app_nil_r. auto. }
  destruct (Local parsed) eqn:Hlocal.
  { intros [= <- <-]. left. auto. }
  destruct (ListPeers u calls) as [peers | err].
  2:{ intros [= <- <-]. right. right. split; [ discriminate | ].
      exists [ListPeersCalled]. auto. }
  destruct (RemoteKind peers _) as [[atClass | atClass | other] | err].
  - unfold updateSchema.
    destruct (UpdatePropertyAddDataType u _ _ _ _ _) as [err | ];
      intros [= <- <-]; right; [ right | left ].
    + split; [ discriminate | ].
      exists (calls_for u (propName, remote_class (PeerName parsed) atClass)).
      split; [ unfold calls_for; cbn [fst snd]; rewrite <- app_assoc; reflexivity | eauto ].
    + split; [ reflexivity | ]. split; [ reflexivity | ].
      exists (propName, remote_class (PeerName parsed) atClass).
      split; [ split; [ reflexivity | exists parsed, atClass; split; [ exact Hparse | reflexivity ] ] | ].
      unfold calls_for; cbn [fst snd]. rewrite <- app_assoc. reflexivity.
  - unfold updateSchema.
    destruct (UpdatePropertyAddDataType u _ _ _ _ _) as [err | ];
      intros [= <- <-]; right; [ right | left ].
    + split; [ discriminate | ].
      exists (calls_for u (propName, remote_class (PeerName parsed) atClass)).
      split; [ unfold calls_for; cbn [fst snd]; rewrite <- app_assoc; reflexivity | eauto ].
    + split; [ reflexivity | ]. split; [ reflexivity | ].
      exists (propName, remote_class (PeerName parsed) atClass).
      split; [ split; [ reflexivity | exists parsed, atClass; split; [ exact Hparse | reflexivity ] ] | ].
      unfold calls_for; cbn [fst snd]. rewrite <- app_assoc. reflexivity.
  - unfold updateSchema. destruct prop as [p | ]; intros [= <- <-];
      right; right; (split; [ discriminate | ]);
      exists [ListPeersCalled]; auto.
  - intros [= <- <-]. right. right. split; [ discriminate | ].
    exists [ListPeersCalled]. auto.
Qed.

Lemma eachReference_app (u : Updater) refs1 : forall calls refs2,
  each u calls (refs1 ++ refs2) =
  match each u calls refs1 with
  | (Returned None, calls1) => each u calls1 refs2
  | stopped => stopped
  end.
Proof.
  unfold each.
  induction refs1 as [ | [propName prop] refs1 IH]; intros calls refs2;
    [ reflexivity | ].
  cbn [app eachReference].
  destruct (singleRef ParseSingleRef RemoteKind u calls prop propName)
    as [[[err | ] | c] calls1]; [ reflexivity | apply IH | reflexivity ].
Qed.

Lemma multipleRef_eachReference (u : Updater) propName props : forall calls,
  multipleRef ParseSingleRef RemoteKind u calls props propName
  = each u calls (map (fun prop => (propName, prop)) props).
Proof.
  unfold each. induction props as [ | prop props IH]; intros calls;
    [ reflexivity | ].
  cbn [map multipleRef eachReference].
  destruct (singleRef ParseSingleRef RemoteKind u calls prop propName)
    as [[[err | ] | c] calls1]; [ reflexivity | apply IH | reflexivity ].
Qed.

(** The loops of [addNetworkDataTypes] visit the references one after
    the other. *)
Lemma eachProperty_eachReference (u : Updater)
    (entries : list (String.string * @prop_value OtherProp)) : forall calls,
  eachProperty ParseSingleRef RemoteKind u calls entries
  = each u calls (references entries).
Proof.
  induction entries as [ | [propName prop] entries IH]; intros calls;
    [ reflexivity | ].
  cbn [eachProperty references flat_map fst snd].
  fold (references entries).
  destruct prop as [propTyped | propTyped | other].
  - rewrite (eachReference_app u [(propName, propTyped)]).
    unfold each. cbn [eachReference].
    destruct (singleRef ParseSingleRef RemoteKind u calls propTyped propName)
      as [[[err | ] | c] calls1]; [ reflexivity | apply IH | reflexivity ].
  - rewrite eachReference_app, <- multipleRef_eachReference.
    destruct (multipleRef ParseSingleRef RemoteKind u calls propTyped propName)
      as [[[err | ] | c] calls1]; [ reflexivity | apply IH | reflexivity ].
  - apply IH.
Qed.

(** What a run of references calls, and what it has called when it
    returns no error. *)
Lemma eachReference_shape (u : Updater) refs : forall calls o calls',
  each u calls refs = (o, calls') ->
  exists updates tail,
    calls' = calls ++ flat_map (calls_for u) updates ++ tail
    /\ stopped_tail u tail
    /\ (o = Returned None ->
        tail = []
        /\ Forall2 (asked_by ParseSingleRef)
             (filter (fun ref => remote (snd ref)) refs) updates).
Proof.
  induction refs as [ | [propName prop] refs IH]; intros calls o calls' Hrun.
  { injection Hrun as <- <-. exists [], []. cbn. rewrite app_nil_r.
    split; [ reflexivity | ]. split; [ left; reflexivity | ].
    intros _. split; [ reflexivity | constructor ]. }
  unfold each in Hrun. cbn [eachReference] in Hrun.
  destruct (singleRef ParseSingleRef RemoteKind u calls prop propName)
    as [o1 calls1] eqn:Hone.
  apply singleRef_shape in Hone.
  destruct Hone as [(-> & Hloc & ->) | [(-> & Hrem & update & Hask & ->)
                                      | (Hno & tail & -> & Htail)]].
  - apply IH in Hrun. destruct Hrun as (updates & tail & -> & Htail & Hok).
    exists updates, tail. split; [ reflexivity | ]. split; [ exact Htail | ].
    cbn [filter snd]. rewrite Hloc. exact Hok.
  - apply IH in Hrun. destruct Hrun as (updates & tail & -> & Htail & Hok).
    exists (update :: updates), tail.
    split; [ cbn [flat_map]; rewrite <- !app_assoc; reflexivity | ].
    split; [ exact Htail | ].
    intros Ho. destruct (Hok Ho) as [-> Hall]. split; [ reflexivity | ].
    cbn [filter snd]. rewrite Hrem. constructor; assumption.
  - exists [], tail.
    assert (o = o1 /\ calls' = calls ++ tail) as [-> ->].
    { destruct o1 as [[err | ] | c]; [ | congruence | ];
        injection Hrun as <- <-; auto. }
    split; [ reflexivity | ]. split; [ exact Htail | ].
    intros Ho. contradiction.
Qed.

(** A run of local references returns no error and calls nothing. *)
Lemma eachReference_local (u : Updater) refs : forall calls,
  Forall (fun ref => is_local ParseSingleRef (snd ref)) refs ->
  each u calls refs = (Returned None, calls).
Proof.
  induction refs as [ | [propName prop] refs IH]; intros calls Hall;
    [ reflexivity | ].
  inversion Hall as [ | ? ? (parsed & Hparse & Hlocal) Hrest]; subst.
  unfold each. cbn [eachReference snd] in *.
  unfold singleRef. rewrite Hparse, Hlocal. apply IH, Hrest.
Qed.

(** A reference that is a pointer to something never makes the updater
    panic. *)
Lemma singleRef_returns (u : Updater) calls prop propName :
  prop <> None ->
  exists err, fst (single u calls prop propName) = Returned err.
Proof.
  intros Hprop. unfold single, singleRef.
  destruct (ParseSingleRef prop) as [parsed | err]; [ | cbn; eauto ].
  destruct (Local parsed); [ cbn; eauto | ].
  destruct (ListPeers u calls) as [peers | err]; [ | cbn; eauto ].
  destruct (RemoteKind peers _) as [[atClass | atClass | other] | err];
    [ | | | cbn; eauto ]; unfold updateSchema.
  - destruct (UpdatePropertyAddDataType u _ _ _ _ _); cbn; eauto.
  - destruct (UpdatePropertyAddDataType u _ _ _ _ _); cbn; eauto.
  - destruct prop; [ cbn; eauto | contradiction ].
Qed.

Lemma eachReference_returns (u : Updater) refs : forall calls,
  Forall (fun ref => snd ref <> None) refs ->
  exists err, fst (each u calls refs) = Returned err.
Proof.
  induction refs as [ | [propName prop] refs IH]; intros calls Hall;
    [ cbn; eauto | ].
  inversion Hall as [ | ? ? Hprop Hrest]; subst. cbn [snd] in Hprop.
  unfold each. cbn [eachReference].
  destruct (singleRef_returns u calls prop propName Hprop) as [err Herr].
  unfold single in Herr.
  destruct (singleRef ParseSingleRef RemoteKind u calls prop propName)
    as [o1 calls1]. cbn [fst] in Herr. subst o1.
  destruct err as [err | ]; [ cbn; eauto | apply IH, Hrest ].
Qed.

(** X21. A schema whose references are all local is accepted without a
    call to the network or to the schema manager: [addNetworkDataTypes]
    returns nil and the record of calls is the one it started with. *)
Theorem local_references_need_no_network (u : Updater) calls
    (entries : list (String.string * @prop_value OtherProp)) :
  Forall (fun ref => is_local ParseSingleRef (snd ref)) (references entries) ->
  add u calls (MapSchema entries) = (Returned None, calls).
Proof.
  intros Hall. unfold add, addNetworkDataTypes.
  rewrite eachProperty_eachReference. apply eachReference_local, Hall.
Qed.

(** X22. When [addNetworkDataTypes] returns nil, it has listed the peers
    and updated the schema once for each reference into the network, in
    the order of the references and for nothing else; each update is for
    the updater's kind and class, the property of the reference and a
    class under the name of the peer the reference parses to. *)
Theorem successful_update_calls (u : Updater) calls
    (entries : list (String.string * @prop_value OtherProp)) calls' :
  add u calls (MapSchema entries) = (Returned None, calls') ->
  exists updates,
    Forall2 (asked_by ParseSingleRef)
      (filter (fun ref => remote (snd ref)) (references entries)) updates
    /\ calls' = calls ++ flat_map (calls_for u) updates.
Proof.
  unfold add, addNetworkDataTypes. rewrite eachProperty_eachReference.
  intros Hrun. apply eachReference_shape in Hrun.
  destruct Hrun as (updates & tail & -> & _ & Hok).
  destruct (Hok eq_refl) as [-> Hall].
  exists updates. rewrite app_nil_r. auto.
Qed.

(** X23. The properties are handled in turn: over the entries
    [es1 ++ es2] the updater does what it does over [es1] and, if that
    returned nil, goes on over [es2] from the calls made so far; an error
    or a panic in [es1] is the result, and nothing of [es2] is looked
    at. *)
Theorem properties_are_handled_in_turn (u : Updater) calls
    (es1 es2 : list (String.string * @prop_value OtherProp)) :
  eachProperty ParseSingleRef RemoteKind u calls (es1 ++ es2) =
  match eachProperty ParseSingleRef RemoteKind u calls es1 with
  | (Returned None, calls1) =>
      eachProperty ParseSingleRef RemoteKind u calls1 es2
  | stopped => stopped
  end.
Proof.
  rewrite !eachProperty_eachReference.
  unfold references. rewrite flat_map_app. fold (references es1).
  fold (references es2). rewrite eachReference_app.
  destruct (each u calls (references es1)) as [[[err | ] | c] calls1];
    [ reflexivity | | reflexivity ].
  symmetry. apply eachProperty_eachReference.
Qed.

(** X24. Whatever [addNetworkDataTypes] returns, and also when it
    panics, the calls it has made are a run of pairs, the peers listed
    and then the schema updated for the updater's kind and class,
    followed by at most one more listing or pair: the schema is never
    updated without the peers having been listed just before. *)
Theorem updates_follow_peer_listing (u : Updater) calls
    (schema : @schema_value OtherProp OtherSchema) o calls' :
  add u calls schema = (o, calls') ->
  exists updates tail,
    calls' = calls ++ flat_map (calls_for u) updates ++ tail
    /\ stopped_tail u tail.
Proof.
  unfold add, addNetworkDataTypes.
  destruct schema as [ | entries | other].
  - intros [= <- <-]. exists [], []. cbn. rewrite app_nil_r.
    split; [ reflexivity | left; reflexivity ].
  - rewrite eachProperty_eachReference. intros Hrun.
    apply eachReference_shape in Hrun.
    destruct Hrun as (updates & tail & -> & Htail & _). eauto.
  - intros [= <- <-]. exists [], []. cbn. rewrite app_nil_r.
    split; [ reflexivity | left; reflexivity ].
Qed.

(** X25. [addNetworkDataTypes] does not panic on a map none of whose
    references is a nil pointer: it returns, with nil or an error. *)
Theorem map_without_nil_reference_returns (u : Updater) calls
    (entries : list (String.string * @prop_value OtherProp)) :
  Forall (fun ref => snd ref <> None) (references entries) ->
  exists err,
    fst (add u calls (MapSchema (OtherSchema := OtherSchema) entries))
    = Returned err.
Proof.
  intros Hall. unfold add, addNetworkDataTypes.
  rewrite eachProperty_eachReference. apply eachReference_returns, Hall.
Qed.

End Facts.

Lemma local_references_need_no_network_witness :
  demo_add [] (MapSchema local_entries) = (Returned None, []).
Proof.
  apply (local_references_need_no_network demo_ParseSingleRef
           demo_RemoteKind demo_updater [] local_entries).
  assert (Hlocal : is_local demo_ParseSingleRef demo_local)
    by (exists (mkRef true true 1 String.EmptyString); split; reflexivity).
  repeat (apply Forall_cons; [ exact Hlocal | ]). apply Forall_nil.
Defined.

Lemma successful_update_calls_witness :
  exists updates,
    Forall2 (asked_by demo_ParseSingleRef)
      (filter (fun ref => is_remote demo_ParseSingleRef (snd ref))
         (references mixed_entries)) updates
    /\ calls_for demo_updater drives_car
       = [] ++ flat_map (calls_for demo_updater) updates.
Proof.
  apply (successful_update_calls (OtherSchema := unit)
           demo_ParseSingleRef demo_RemoteKind
           demo_updater [] mixed_entries
           (calls_for demo_updater drives_car)).
  reflexivity.
Defined.

Lemma updates_follow_peer_listing_witness :
  exists updates tail,
    calls_for demo_updater drives_car
    = [] ++ flat_map (calls_for demo_updater) updates ++ tail
    /\ stopped_tail demo_updater tail.
Proof.
  apply (updates_follow_peer_listing demo_ParseSingleRef demo_RemoteKind
           demo_updater [] (MapSchema (OtherSchema := unit) mixed_entries)
           (Returned None)).
  reflexivity.
Defined.

Lemma map_without_nil_reference_returns_witness :
  exists err, fst (demo_add [] (MapSchema mixed_entries)) = Returned err.
Proof.
  apply (map_without_nil_reference_returns demo_ParseSingleRef
           demo_RemoteKind demo_updater [] mixed_entries).
  repeat (apply Forall_cons; [ discriminate | ]). apply Forall_nil.
Defined.

End RefSchemaFacts.
